(** * Grundsteuer-Einsparungsrechner: a shallow embedding of
      [grundsteuer_rechner.py] and the properties of its specification.

    The program computes with Python's [decimal.Decimal] under a context of
    28 significant digits.  The first part of this file models the fragment
    of that arithmetic the program uses (finite numbers, the operations
    [*], [/], [-], [quantize] and the [.2f] format); the second part is the
    program itself ([d], [quant2], [eur], [berechne]); the third part holds
    the theorems. *)

From Stdlib Require Import ZArith NArith Ascii String Bool Lia List.
Import ListNotations.

Open Scope Z_scope.

(** [lia] reasons about [/] and [mod] through their Euclidean equations. *)
Ltac Zify.zify_post_hook ::= Z.to_euclidean_division_equations.

(** ** Exceptions and results *)

(** The exceptions the modelled code can raise.  [InvalidOperation],
    [DivisionByZero] and [Overflow] are the signals trapped by the default
    decimal context; [ValueError] is what unpacking [s.split(".")] into two
    names raises when the split does not have two parts. *)
Inductive exn : Set :=
| InvalidOperation
| DivisionByZero
| Overflow
| ValueError.

Inductive result (A : Type) : Type :=
| OK (a : A)
| Raise (e : exn).

Arguments OK {A} a.
Arguments Raise {A} e.

Definition bind {A B : Type} (m : result A) (k : A -> result B) : result B :=
  match m with
  | OK a => k a
  | Raise e => Raise e
  end.

Declare Scope py_scope.
Delimit Scope py_scope with py.
Notation "x <- m ;; k" := (bind m (fun x => k))
  (at level 61, m at next level, right associativity) : py_scope.
Open Scope py_scope.

(** ** Python strings and integers

    A [str] is a list of characters.  The program only builds ASCII text,
    apart from the euro sign, which is kept as its three UTF-8 bytes. *)

Definition str := list ascii.

Definition lit (s : string) : str := list_ascii_of_string s.

Definition digit_char (n : N) : ascii := ascii_of_N (48 + n).

Definition digit_val (c : ascii) : N := N_of_ascii c - 48.

Definition is_digit (c : ascii) : bool :=
  ((48 <=? N_of_ascii c) && (N_of_ascii c <=? 57))%N.

(** Decimal digits of [n], least significant first. *)
Fixpoint lsd_digits (fuel : nat) (n : N) : list N :=
  match fuel with
  | O => []
  | S f => if (n <? 10)%N then [n] else (n mod 10)%N :: lsd_digits f (n / 10)
  end.

Definition digits (n : N) : list N :=
  rev (lsd_digits (S (N.to_nat (N.log2 n))) n).

(** [str(n)] for a non-negative [int]. *)
Definition str_of_N (n : N) : str := map digit_char (digits n).

(** [len(str(n))], the number of decimal digits of a coefficient. *)
Definition ndigits (n : N) : Z := Z.of_nat (length (digits n)).

(** [int(s)] for a string of digits. *)
Definition int_of_str (s : str) : N :=
  fold_left (fun acc c => (10 * acc + digit_val c)%N) s 0%N.

(** [10**k] for [k >= 0]. *)
Definition pow10 (k : Z) : N := (10 ^ Z.to_N k)%N.

(** ** The decimal module *)

Module decimal.

(** A finite [Decimal]: sign, coefficient and exponent, the value being
    [(-1)^sign * coefficient * 10^exponent].  NaNs and infinities are left
    out: the program is given finite numbers, and an operation on finite
    numbers only leaves them by overflowing, which the context traps. *)
Record Decimal : Set := mkDecimal {
  dsign : bool;
  dint : N;
  dexp : Z
}.

(** The context: [getcontext().prec = 28], and the defaults for the rest
    ([ROUND_HALF_EVEN], [Emax = 999999], [Emin = -999999], no clamping). *)
Definition prec : Z := 28.
Definition Emax : Z := 999999.
Definition Emin : Z := -999999.
Definition Etiny : Z := Emin - prec + 1.
Definition Etop : Z := Emax - prec + 1.

Inductive rounding : Set := ROUND_HALF_UP | ROUND_HALF_EVEN.

Definition is_zero (x : Decimal) : bool := (dint x =? 0)%N.

Definition adjusted (x : Decimal) : Z := dexp x + ndigits (dint x) - 1.

Definition copy_negate (x : Decimal) : Decimal :=
  mkDecimal (negb (dsign x)) (dint x) (dexp x).

(** Whether dropping the last [k] digits of [c] rounds the kept part up:
    half-up looks at the first dropped digit, half-even rounds an exact
    half towards the even neighbour. *)
Definition round_up (r : rounding) (c : N) (k : Z) : bool :=
  let p := pow10 k in
  let q := (c / p)%N in
  let rm := (c mod p)%N in
  match r with
  | ROUND_HALF_UP => (p <=? 2 * rm)%N
  | ROUND_HALF_EVEN =>
      if ((2 * rm =? p) && N.even q)%N then false else (p <=? 2 * rm)%N
  end.

Definition round_shift (r : rounding) (c : N) (k : Z) : N :=
  if round_up r c k then (c / pow10 k + 1)%N else (c / pow10 k)%N.

(** [Decimal._rescale]: the same number at exponent [e], padded with zeros
    or rounded. *)
Definition rescale (x : Decimal) (e : Z) (r : rounding) : Decimal :=
  if is_zero x then mkDecimal (dsign x) 0 e
  else if e <=? dexp x then
    mkDecimal (dsign x) (dint x * pow10 (dexp x - e)) e
  else mkDecimal (dsign x) (round_shift r (dint x) (e - dexp x)) e.

(** [Decimal._fix]: round the result of an operation to the context. *)
Definition fix_ (x : Decimal) : result Decimal :=
  if is_zero x then
    OK (mkDecimal (dsign x) 0 (Z.min (Z.max (dexp x) Etiny) Emax))
  else
    let exp_min := ndigits (dint x) + dexp x - prec in
    if exp_min >? Etop then Raise Overflow
    else
      let exp_min := if exp_min <? Etiny then Etiny else exp_min in
      if dexp x <? exp_min then
        let k := exp_min - dexp x in
        let q := (dint x / pow10 k)%N in
        let '(coeff, exp_min) :=
          if round_up ROUND_HALF_EVEN (dint x) k then
            if ndigits (q + 1) >? prec then (((q + 1) / 10)%N, exp_min + 1)
            else ((q + 1)%N, exp_min)
          else (q, exp_min) in
        if exp_min >? Etop then Raise Overflow
        else OK (mkDecimal (dsign x) coeff exp_min)
      else OK x.

(** [Decimal.quantize]. *)
Definition quantize (x exp : Decimal) (r : rounding) : result Decimal :=
  let e := dexp exp in
  if negb ((Etiny <=? e) && (e <=? Emax)) then Raise InvalidOperation
  else if is_zero x then fix_ (mkDecimal (dsign x) 0 e)
  else if adjusted x >? Emax then Raise InvalidOperation
  else if adjusted x - e + 1 >? prec then Raise InvalidOperation
  else
    let ans := rescale x e r in
    if adjusted ans >? Emax then Raise InvalidOperation
    else if ndigits (dint ans) >? prec then Raise InvalidOperation
    else fix_ ans.

(** [Decimal.__mul__].  (The source special-cases the coefficients 0 and 1;
    the product below is the same number in both cases.) *)
Definition mul (a b : Decimal) : result Decimal :=
  fix_ (mkDecimal (xorb (dsign a) (dsign b)) (dint a * dint b)
                  (dexp a + dexp b)).

(** [_normalize]: align two non-zero operands on one exponent; an operand
    too small to matter at the context precision is replaced by a sticky
    [1]. *)
Definition normalize (c1 : N) (e1 : Z) (c2 : N) (e2 : Z) : (N * N) * Z :=
  if e1 <? e2 then
    (* tmp is the second operand, other the first *)
    let exp := e2 + Z.min (-1) (ndigits c2 - prec - 2) in
    let '(oc, oe) := if ndigits c1 + e1 - 1 <? exp then (1%N, exp)
                     else (c1, e1) in
    ((oc, (c2 * pow10 (e2 - oe))%N), oe)
  else
    let exp := e1 + Z.min (-1) (ndigits c1 - prec - 2) in
    let '(oc, oe) := if ndigits c2 + e2 - 1 <? exp then (1%N, exp)
                     else (c2, e2) in
    (((c1 * pow10 (e1 - oe))%N, oc), oe).

(** [Decimal.__add__]. *)
Definition add (a b : Decimal) : result Decimal :=
  let exp := Z.min (dexp a) (dexp b) in
  if is_zero a && is_zero b then
    fix_ (mkDecimal (dsign a && dsign b) 0 exp)
  else if is_zero a then
    fix_ (rescale b (Z.max exp (dexp b - prec - 1)) ROUND_HALF_EVEN)
  else if is_zero b then
    fix_ (rescale a (Z.max exp (dexp a - prec - 1)) ROUND_HALF_EVEN)
  else
    let '((c1, c2), e) := normalize (dint a) (dexp a) (dint b) (dexp b) in
    if Bool.eqb (dsign a) (dsign b) then
      fix_ (mkDecimal (dsign a) (c1 + c2) e)
    else if (c1 =? c2)%N then fix_ (mkDecimal false 0 exp)
    else if (c1 <? c2)%N then fix_ (mkDecimal (dsign b) (c2 - c1) e)
    else fix_ (mkDecimal (dsign a) (c1 - c2) e).

(** [Decimal.__sub__]. *)
Definition sub (a b : Decimal) : result Decimal := add a (copy_negate b).

(** The loop of [__truediv__] that brings an exact quotient as close to the
    ideal exponent as its trailing zeros allow; [fuel] is the distance to
    the ideal exponent. *)
Fixpoint strip_zeros (fuel : nat) (coeff : N) (exp : Z) : N * Z :=
  match fuel with
  | O => (coeff, exp)
  | S f =>
      if (coeff mod 10 =? 0)%N then strip_zeros f (coeff / 10) (exp + 1)
      else (coeff, exp)
  end.

(** [Decimal.__truediv__]. *)
Definition truediv (a b : Decimal) : result Decimal :=
  let sign := xorb (dsign a) (dsign b) in
  if is_zero b then
    if is_zero a then Raise InvalidOperation else Raise DivisionByZero
  else if is_zero a then fix_ (mkDecimal sign 0 (dexp a - dexp b))
  else
    let shift := ndigits (dint b) - ndigits (dint a) + prec + 1 in
    let exp := dexp a - dexp b - shift in
    let num := if 0 <=? shift then (dint a * pow10 shift)%N else dint a in
    let den := if 0 <=? shift then dint b
               else (dint b * pow10 (- shift))%N in
    let coeff := (num / den)%N in
    let remainder := (num mod den)%N in
    if negb (remainder =? 0)%N then
      fix_ (mkDecimal sign
              (if (coeff mod 5 =? 0)%N then coeff + 1 else coeff)%N exp)
    else
      let '(coeff, exp) :=
        strip_zeros (Z.to_nat (dexp a - dexp b - exp)) coeff exp in
      fix_ (mkDecimal sign coeff exp).

(** [Decimal(str(n))] for an [int]. *)
Definition of_int (n : Z) : Decimal := mkDecimal (n <? 0) (Z.abs_N n) 0.

(** [format(x, ".2f")]: the number at two places (rounded by the context's
    rounding), as sign, integer digits, a point and two fraction digits. *)
Definition format_2f (x : Decimal) : str :=
  let y := rescale x (-2) ROUND_HALF_EVEN in
  (if dsign y then lit "-" else []) ++
  str_of_N (dint y / 100) ++ lit "." ++
  [digit_char (dint y / 10 mod 10); digit_char (dint y mod 10)].

End decimal.

Import decimal.

(** ** The program *)

(** [EURO = Decimal("0.01")] and the constants of [berechne]. *)
Definition EURO : Decimal := mkDecimal false 1 (-2).
Definition Decimal_1000 : Decimal := mkDecimal false 1000 0.
Definition Decimal_100 : Decimal := mkDecimal false 100 0.
Definition Decimal_1_4 : Decimal := mkDecimal false 14 (-1).

(** [d]: on a [Decimal] the converter is the identity. *)
Definition d (x : Decimal) : Decimal := x.

(** [quant2]. *)
Definition quant2 (x : Decimal) : result Decimal :=
  quantize (d x) EURO ROUND_HALF_UP.

(** [s.split(sep)] for a one-character separator. *)
Fixpoint split (sep : ascii) (s : str) : list str :=
  match s with
  | [] => [[]]
  | c :: t =>
      if Ascii.eqb c sep then [] :: split sep t
      else match split sep t with
           | [] => [[c]]
           | w :: ws => (c :: w) :: ws
           end
  end.

(** [[rev[i:i+3] for i in range(0, len(rev), 3)]]. *)
Fixpoint chunks (s : str) : list str :=
  match s with
  | [] => []
  | [a] => [[a]]
  | [a; b] => [[a; b]]
  | a :: b :: c :: t => [a; b; c] :: chunks t
  end.

(** [sep.join(parts)]. *)
Fixpoint join (sep : str) (parts : list str) : str :=
  match parts with
  | [] => []
  | [p] => p
  | p :: ps => p ++ sep ++ join sep ps
  end.

(** The euro sign, as UTF-8. *)
Definition euro_sign : str :=
  [ascii_of_N 226; ascii_of_N 130; ascii_of_N 172].

(** [eur]. *)
Definition eur (x : Decimal) : result str :=
  xq <- quant2 x ;;
  let s := format_2f xq in
  match split "."%char s with
  | [whole; frac] =>
      let rev_ := rev whole in
      let whole_fmt := rev (join (lit ".") (chunks rev_)) in
      OK (whole_fmt ++ lit "," ++ frac ++ lit " " ++ euro_sign)
  | _ => Raise ValueError
  end.

Record Inputs : Set := mkInputs {
  grundsteuerwert : Decimal;
  messzahl_permille : Decimal;
  hebesatz_prozent : Decimal;
  years : Z;
  custom_verkehrswert : option Decimal
}.

Record Results : Set := mkResults {
  steuer_status_quo : Decimal;
  schwelle_40_prozent : Decimal;
  steuer_beim_schwellenwert : Decimal;
  ersparnis_pro_jahr_schwelle : Decimal;
  ersparnis_gesamt_schwelle : Decimal;
  steuer_beim_custom : option Decimal;
  ersparnis_pro_jahr_custom : option Decimal;
  ersparnis_gesamt_custom : option Decimal
}.

(** [berechne]. *)
Definition berechne (inputs : Inputs) : result Results :=
  let gsw := d (grundsteuerwert inputs) in
  mess <- truediv (d (messzahl_permille inputs)) Decimal_1000 ;;
  heb <- truediv (d (hebesatz_prozent inputs)) Decimal_100 ;;
  let years := years inputs in
  t <- mul gsw mess ;;
  t <- mul t heb ;;
  steuer_now <- quant2 t ;;
  t <- truediv gsw Decimal_1_4 ;;
  vmax <- quant2 t ;;
  t <- mul vmax mess ;;
  t <- mul t heb ;;
  steuer_vmax <- quant2 t ;;
  t <- sub steuer_now steuer_vmax ;;
  ersparnis_vmax_jahr <- quant2 t ;;
  t <- mul ersparnis_vmax_jahr (of_int years) ;;
  ersparnis_vmax_gesamt <- quant2 t ;;
  match custom_verkehrswert inputs with
  | None =>
      OK (mkResults steuer_now vmax steuer_vmax ersparnis_vmax_jahr
            ersparnis_vmax_gesamt None None None)
  | Some cv =>
      let cv := d cv in
      t <- mul cv mess ;;
      t <- mul t heb ;;
      steuer_custom <- quant2 t ;;
      t <- sub steuer_now steuer_custom ;;
      ersparnis_custom_jahr <- quant2 t ;;
      t <- mul ersparnis_custom_jahr (of_int years) ;;
      ersparnis_custom_gesamt <- quant2 t ;;
      OK (mkResults steuer_now vmax steuer_vmax ersparnis_vmax_jahr
            ersparnis_vmax_gesamt (Some steuer_custom)
            (Some ersparnis_custom_jahr) (Some ersparnis_custom_gesamt))
  end.

(** ** Notions used in the statements *)

(** The signed coefficient: for a number with exponent -2, its amount in
    cents. *)
Definition cents (x : Decimal) : Z :=
  if dsign x then - Z.of_N (dint x) else Z.of_N (dint x).

(** The expressions [berechne] repeats for the threshold and for the custom
    value, named: the tax on a value, the saving per year against the
    current tax, and the saving over the remaining years. *)
Definition steuer (wert mess heb : Decimal) : result Decimal :=
  t <- mul wert mess ;; t <- mul t heb ;; quant2 t.

Definition ersparnis_jahr (steuer_now steuer_neu : Decimal) : result Decimal :=
  t <- sub steuer_now steuer_neu ;; quant2 t.

Definition ersparnis_gesamt (jahr : Decimal) (years : Z) : result Decimal :=
  t <- mul jahr (of_int years) ;; quant2 t.

Definition szenario (wert mess heb steuer_now : Decimal) (years : Z)
  : result (Decimal * Decimal * Decimal) :=
  s <- steuer wert mess heb ;;
  j <- ersparnis_jahr steuer_now s ;;
  g <- ersparnis_gesamt j years ;;
  OK (s, j, g).

(** The threshold value, [quant2(gsw / Decimal("1.4"))]. *)
Definition schwelle (gsw : Decimal) : result Decimal :=
  t <- truediv gsw Decimal_1_4 ;; quant2 t.

(** A value rounded to two decimals, as [quant2] returns it: exponent -2 and
    a coefficient within the precision. *)
Definition two_places (x : Decimal) : Prop :=
  dexp x = -2 /\ ndigits (dint x) <= prec.

(** [x] is zero or below [10^(A+1)] in absolute value. *)
Definition mag (x : Decimal) (A : Z) : Prop :=
  is_zero x = true \/ adjusted x <= A.

(** The numeric order of two decimals, compared at their smaller exponent. *)
Definition Dle (x y : Decimal) : Prop :=
  let m := Z.min (dexp x) (dexp y) in
  cents x * Z.of_N (pow10 (dexp x - m))
  <= cents y * Z.of_N (pow10 (dexp y - m)).

(** The amount in cents of a decimal with at most two decimals. *)
Definition to_cents (x : Decimal) : N := (dint x * pow10 (dexp x + 2))%N.

(** [a / b] rounded to the nearest integer, a half going up. *)
Definition div_half_up (a b : N) : N := ((2 * a + b) / (2 * b))%N.

(** An input with the assessed value 0.007. *)
Definition scenario_small : Inputs :=
  mkInputs (mkDecimal false 7 (-3)) (mkDecimal false 31 (-2))
           (mkDecimal false 470 0) 4 None.


(** Scenario A with a custom value of 1400000, above the assessed value. *)
Definition scenario_high_custom : Inputs :=
  mkInputs (mkDecimal false 1031600 0) (mkDecimal false 31 (-2))
           (mkDecimal false 470 0) 4 (Some (mkDecimal false 1400000 0)).


(** A value that [quant2] returned. *)
Definition quantized (x : Decimal) : Prop := exists t, quant2 t = OK x.

(** The same inputs without the custom value. *)
Definition ohne_custom (i : Inputs) : Inputs :=
  mkInputs (grundsteuerwert i) (messzahl_permille i) (hebesatz_prozent i)
           (years i) None.

(** *** Reading a formatted amount back

    Modelled from the spec: the repository has no parser for the strings
    [eur] produces; the round trip of the specification reads the numeric
    portion back by dropping the currency suffix, stripping the thousands
    separators, turning the decimal comma into a point and parsing the
    result as a decimal: [removesuffix] of the blank and the euro sign,
    [replace] of every point by nothing and of the comma by a point, and
    the [Decimal] constructor. *)

(** [s.removeprefix(p)], when [s] starts with [p]. *)
Fixpoint strip_prefix (p s : str) : option str :=
  match p, s with
  | [], _ => Some s
  | a :: p', b :: s' => if Ascii.eqb a b then strip_prefix p' s' else None
  | _ :: _, [] => None
  end.

(** [s.removesuffix(p)], when [s] ends with [p]. *)
Definition strip_suffix (p s : str) : option str :=
  option_map (@rev ascii) (strip_prefix (rev p) (rev s)).

(** [s.replace(c, "")]. *)
Definition remove_char (c : ascii) (s : str) : str :=
  filter (fun a => negb (Ascii.eqb a c)) s.

(** [s.replace(c, c')]. *)
Definition replace_char (c c' : ascii) (s : str) : str :=
  map (fun a => if Ascii.eqb a c then c' else a) s.

(** [Decimal(s)] for a plain numeral: an optional sign, digits, and
    optionally a point and more digits, with a digit on at least one side. *)
Definition Decimal_of_str (s : str) : option Decimal :=
  let '(sign, body) :=
    match s with
    | c :: t => if Ascii.eqb c "-"%char then (true, t)
                else if Ascii.eqb c "+"%char then (false, t)
                else (false, s)
    | [] => (false, s)
    end in
  match split "."%char body with
  | [intpart] =>
      if forallb is_digit intpart && negb (Nat.eqb (length intpart) 0)
      then Some (mkDecimal sign (int_of_str intpart) 0)
      else None
  | [intpart; fracpart] =>
      if forallb is_digit (intpart ++ fracpart)
         && negb (Nat.eqb (length (intpart ++ fracpart)) 0)
      then Some (mkDecimal sign (int_of_str (intpart ++ fracpart))
                   (- Z.of_nat (length fracpart)))
      else None
  | _ => None
  end.

Definition parse_eur (s : str) : option Decimal :=
  match strip_suffix (lit " " ++ euro_sign) s with
  | Some num =>
      Decimal_of_str
        (replace_char ","%char "."%char (remove_char "."%char num))
  | None => None
  end.

(** The end-to-end scenarios of the specification. *)
Definition scenario_A : Inputs :=
  mkInputs (mkDecimal false 1031600 0) (mkDecimal false 31 (-2))
           (mkDecimal false 470 0) 4 None.

Definition result_A : Results :=
  mkResults (mkDecimal false 150304 (-2)) (mkDecimal false 73685714 (-2))
            (mkDecimal false 107360 (-2)) (mkDecimal false 42944 (-2))
            (mkDecimal false 171776 (-2)) None None None.

Definition scenario_B : Inputs :=
  mkInputs (mkDecimal false 1031600 0) (mkDecimal false 31 (-2))
           (mkDecimal false 470 0) 4 (Some (mkDecimal false 600000 0)).

Definition result_B : Results :=
  mkResults (mkDecimal false 150304 (-2)) (mkDecimal false 73685714 (-2))
            (mkDecimal false 107360 (-2)) (mkDecimal false 42944 (-2))
            (mkDecimal false 171776 (-2))
            (Some (mkDecimal false 87420 (-2)))
            (Some (mkDecimal false 62884 (-2)))
            (Some (mkDecimal false 251536 (-2))).

(** Scenario A with a custom value of zero. *)
Definition scenario_zero : Inputs :=
  mkInputs (mkDecimal false 1031600 0) (mkDecimal false 31 (-2))
           (mkDecimal false 470 0) 4 (Some (mkDecimal false 0 0)).

Definition result_zero : Results :=
  mkResults (mkDecimal false 150304 (-2)) (mkDecimal false 73685714 (-2))
            (mkDecimal false 107360 (-2)) (mkDecimal false 42944 (-2))
            (mkDecimal false 171776 (-2))
            (Some (mkDecimal false 0 (-2)))
            (Some (mkDecimal false 150304 (-2)))
            (Some (mkDecimal false 601216 (-2))).

(** No character of [s] is [sep]. *)
Definition free_of (sep : ascii) (s : str) : Prop :=
  forall c, In c s -> Ascii.eqb c sep = false.

(** The parts of a formatted amount: the sign and the two cent digits. *)
Definition sign_str (x : Decimal) : str := if dsign x then lit "-" else [].

Definition cent_digits (x : Decimal) : str :=
  [digit_char (dint x / 10 mod 10); digit_char (dint x mod 10)].


(** *** The German grouping of a whole number, stated on the number

    The digits of [n] in groups of three from the right, separated by
    points: a number below 1000 is written as it is, a larger one as the
    grouping of [n / 1000], a point and the three digits of [n mod 1000]. *)
Definition pad3 (m : N) : str :=
  [digit_char (m / 100); digit_char (m / 10 mod 10); digit_char (m mod 10)].

Fixpoint group3_fuel (fuel : nat) (n : N) : str :=
  match fuel with
  | O => str_of_N n
  | S f =>
      if (n <? 1000)%N then str_of_N n
      else group3_fuel f (n / 1000) ++ lit "." ++ pad3 (n mod 1000)
  end.

Definition group3 (n : N) : str :=
  group3_fuel (S (N.to_nat (N.log2 n))) n.

(** The grouping [eur] does on the whole part, as a function of the
    string. *)
Definition group_str (w : str) : str := rev (join (lit ".") (chunks (rev w))).

(** *** [str] of an [int], and [Decimal] from a string *)

(** [str(n)] for an [int]. *)
Definition str_of_Z (n : Z) : str :=
  (if n <? 0 then lit "-" else []) ++ str_of_N (Z.abs_N n).

(** An exponent written with its sign, as in [1E+3]. *)
Definition str_of_Z_signed (n : Z) : str :=
  (if n <? 0 then lit "-" else lit "+") ++ str_of_N (Z.abs_N n).

(** The string up to the first character satisfying [p], and the rest after
    that character, if there is one. *)
Fixpoint break_at (p : ascii -> bool) (s : str) : str * option str :=
  match s with
  | [] => ([], None)
  | c :: t =>
      if p c then ([], Some t)
      else let '(a, b) := break_at p t in (c :: a, b)
  end.

Definition is_E (c : ascii) : bool :=
  Ascii.eqb c "E"%char || Ascii.eqb c "e"%char.

Definition nonempty_digits (s : str) : bool :=
  forallb is_digit s && negb (Nat.eqb (length s) 0).

(** [int(s)] for an optional sign and digits, as the exponent of a numeral
    is read. *)
Definition signed_int_of_str (s : str) : option Z :=
  match s with
  | c :: t =>
      if Ascii.eqb c "-"%char then
        if nonempty_digits t then Some (- Z.of_N (int_of_str t)) else None
      else if Ascii.eqb c "+"%char then
        if nonempty_digits t then Some (Z.of_N (int_of_str t)) else None
      else if nonempty_digits s then Some (Z.of_N (int_of_str s)) else None
  | [] => None
  end.

(** [Decimal(s)] for a numeral of the grammar of the [decimal] module: an
    optional sign, an integer part and an optional fractional part with a
    digit in at least one of them, and an optional exponent.  Strings the
    constructor accepts beyond that (surrounding blanks, underscores,
    infinities and NaNs, digits outside ASCII) are outside this model and
    get [None], like the strings it refuses with [InvalidOperation]. *)
Definition Decimal_from_str (s : str) : option Decimal :=
  let '(sign, body) :=
    match s with
    | c :: t => if Ascii.eqb c "-"%char then (true, t)
                else if Ascii.eqb c "+"%char then (false, t)
                else (false, s)
    | [] => (false, s)
    end in
  let '(mantissa, exppart) := break_at is_E body in
  let '(intpart, fracpart) :=
    match break_at (fun c => Ascii.eqb c "."%char) mantissa with
    | (i, Some f) => (i, f)
    | (i, None) => (i, [])
    end in
  let exp :=
    match exppart with
    | None => Some 0
    | Some e => signed_int_of_str e
    end in
  match exp with
  | Some e =>
      if nonempty_digits (intpart ++ fracpart) then
        Some (mkDecimal sign (int_of_str (intpart ++ fracpart))
                (e - Z.of_nat (length fracpart)))
      else None
  | None => None
  end.

(** Every character of [s] is an ASCII digit. *)
Definition all_digits (s : str) : Prop :=
  forall c, In c s -> In c (lit "0123456789").

(** *** Rounding at the point a field is finalized *)

(** [y] is [t] rounded half-up to two decimals: [y] has the sign of [t],
    the exponent -2, and for its amount in cents the whole number of cents
    nearest to [t], the larger one in absolute value when [t] lies exactly
    halfway between two. *)
Definition rounds_half_up (t y : Decimal) : Prop :=
  dsign y = dsign t /\ dexp y = -2 /\
  dint y = div_half_up (dint t * pow10 (dexp t + 2)) (pow10 (-2 - dexp t)).

(** A field [y] is finalized from the computation [m] of its unrounded
    value: [m] returns some [t], [quant2] returns [y] for [t], and [y] is
    [t] rounded half-up to two decimals. *)
Definition finalized (m : result Decimal) (y : Decimal) : Prop :=
  exists t, m = OK t /\ quant2 t = OK y /\ rounds_half_up t y.

(** *** Reading decimals at a common exponent *)

(** The coefficient of [x] at the exponent [b], for [b <= dexp x]. *)
Definition scaled (x : Decimal) (b : Z) : N := (dint x * pow10 (dexp x - b))%N.

(** A coefficient rounded as [_fix] rounds it: to [prec] digits, half-even,
    but to no less than [K] dropped digits, and padded again to the same
    exponent. *)
Definition round_to_context (K : Z) (X : N) : N :=
  let k := Z.max (ndigits X - prec) K in
  (round_shift ROUND_HALF_EVEN X k * pow10 k)%N.

(** [d] on an [int], which is not a [Decimal]: [Decimal(str(n))]. *)
Definition d_int (n : Z) : result Decimal :=
  match Decimal_from_str (str_of_Z n) with
  | Some x => OK x
  | None => Raise InvalidOperation
  end.

(** Inverting a [bind] that returned, or that raised. *)
Ltac bind_inv H :=
  match type of H with
  | bind ?m _ = OK _ =>
      let E := fresh "E" in
      destruct m eqn:E; cbn [bind] in H; [|discriminate H]
  end.


(** * Lemmas *)

(** ** Powers of ten and digit counts *)

Section Pow10.

Lemma pow10_pos k : (0 < pow10 k)%N.
Proof. unfold pow10. apply N.neq_0_lt_0, N.pow_nonzero. discriminate. Qed.

Lemma pow10_0 : pow10 0 = 1%N.
Proof. reflexivity. Qed.

Lemma pow10_neg k : k <= 0 -> pow10 k = 1%N.
Proof.
  intros H. unfold pow10.
  replace (Z.to_N k) with 0%N by lia. reflexivity.
Qed.

Lemma pow10_add a b : 0 <= a -> 0 <= b -> pow10 (a + b) = (pow10 a * pow10 b)%N.
Proof.
  intros Ha Hb. unfold pow10. rewrite Z2N.inj_add by assumption.
  apply N.pow_add_r.
Qed.

Lemma pow10_succ a : 0 <= a -> pow10 (a + 1) = (10 * pow10 a)%N.
Proof.
  intros Ha. rewrite pow10_add by lia. change (pow10 1) with 10%N. lia.
Qed.


Lemma pow10_le a b : a <= b -> (pow10 a <= pow10 b)%N.
Proof.
  intros Hab. unfold pow10. apply N.pow_le_mono_r; lia.
Qed.

Lemma pow10_lt_inv a b : (pow10 a < pow10 b)%N -> a < b.
Proof.
  intros H. destruct (Z_lt_le_dec a b) as [|Hle]; [assumption|].
  apply pow10_le in Hle. lia.
Qed.

End Pow10.

Section Digits.

Lemma lsd_digits_bounds fuel : forall n,
  (0 < n)%N -> (n < 2 ^ N.of_nat fuel)%N ->
  let l := length (lsd_digits fuel n) in
  (1 <= l)%nat /\
  (10 ^ N.of_nat (l - 1) <= n)%N /\ (n < 10 ^ N.of_nat l)%N.
Proof.
  induction fuel as [|f IH]; intros n Hpos Hlt.
  - simpl in Hlt. lia.
  - cbn [lsd_digits]. destruct (N.ltb_spec n 10) as [Hs|Hs].
    + cbn. repeat split; lia.
    + assert (Hq : (0 < n / 10)%N) by (apply N.div_str_pos; lia).
      assert (Hf : (n / 10 < 2 ^ N.of_nat f)%N).
      { apply N.Div0.div_lt_upper_bound.
        rewrite Nat2N.inj_succ, N.pow_succ_r' in Hlt. lia. }
      specialize (IH _ Hq Hf). cbn zeta in IH.
      destruct IH as (H1 & H2 & H3).
      cbn [length]. set (l := length (lsd_digits f (n / 10))) in *.
      replace (S l - 1)%nat with (S (l - 1)) by lia.
      rewrite !Nat2N.inj_succ, !N.pow_succ_r'.
      generalize dependent (10 ^ N.of_nat (l - 1))%N.
      generalize dependent (10 ^ N.of_nat l)%N.
      intros; repeat split; lia.
Qed.

Lemma ndigits_0 : ndigits 0 = 1.
Proof. reflexivity. Qed.

Lemma ndigits_pos n : 1 <= ndigits n.
Proof.
  destruct (N.eq_dec n 0) as [->|Hn]; [rewrite ndigits_0; lia|].
  unfold ndigits, digits. rewrite length_rev.
  pose proof (lsd_digits_bounds (S (N.to_nat (N.log2 n))) n) as H.
  cbn zeta in H. destruct H as (H1 & _).
  - lia.
  - rewrite Nat2N.inj_succ, N2Nat.id. apply N.log2_spec. lia.
  - lia.
Qed.

Lemma ndigits_spec n :
  (0 < n)%N -> (pow10 (ndigits n - 1) <= n < pow10 (ndigits n))%N.
Proof.
  intros Hn. unfold ndigits, digits, pow10. rewrite length_rev.
  pose proof (lsd_digits_bounds (S (N.to_nat (N.log2 n))) n) as H.
  cbn zeta in H. destruct H as (H1 & H2 & H3).
  - lia.
  - rewrite Nat2N.inj_succ, N2Nat.id. apply N.log2_spec. lia.
  - set (l := length _) in *.
    replace (Z.to_N (Z.of_nat l - 1)) with (N.of_nat (l - 1)) by lia.
    replace (Z.to_N (Z.of_nat l)) with (N.of_nat l) by lia.
    split; assumption.
Qed.

Lemma ndigits_upper n : (n < pow10 (ndigits n))%N.
Proof.
  destruct (N.eq_dec n 0) as [->|Hn]; [reflexivity|].
  apply ndigits_spec. lia.
Qed.

(** A coefficient below [10^k] has at most [k] digits. *)
Lemma ndigits_le n k : 1 <= k -> (n < pow10 k)%N -> ndigits n <= k.
Proof.
  intros Hk Hlt.
  destruct (N.eq_dec n 0) as [->|Hn]; [rewrite ndigits_0; lia|].
  destruct (ndigits_spec n) as [Hlo _]; [lia|].
  assert (pow10 (ndigits n - 1) < pow10 k)%N as H by lia.
  apply pow10_lt_inv in H. lia.
Qed.

(** A coefficient of at least [10^k] has more than [k] digits. *)
Lemma ndigits_gt n k : (pow10 k <= n)%N -> k < ndigits n.
Proof.
  intros Hle. pose proof (ndigits_upper n) as Hup.
  assert (pow10 k < pow10 (ndigits n))%N as H by lia.
  apply pow10_lt_inv in H. lia.
Qed.

Lemma ndigits_bound n k : ndigits n <= k -> (n < pow10 k)%N.
Proof.
  intros H. pose proof (ndigits_upper n) as Hup.
  pose proof (pow10_le (ndigits n) k H). lia.
Qed.

Lemma ndigits_low n k : (0 < n)%N -> k < ndigits n -> (pow10 k <= n)%N.
Proof.
  intros Hn H. destruct (ndigits_spec n Hn) as [Hlo _].
  pose proof (pow10_le k (ndigits n - 1) ltac:(lia)). lia.
Qed.

Lemma ndigits_unique n k :
  1 <= k -> (pow10 (k - 1) <= n < pow10 k)%N -> ndigits n = k.
Proof.
  intros Hk [Hlo Hhi].
  pose proof (ndigits_le n k Hk Hhi). pose proof (ndigits_gt n (k - 1) Hlo). lia.
Qed.

End Digits.

(** ** Rounding a coefficient *)

Section Rounding.

Lemma round_shift_lower r c k : (c / pow10 k <= round_shift r c k)%N.
Proof. unfold round_shift. destruct (round_up r c k); lia. Qed.

Lemma round_shift_upper r c k : (round_shift r c k <= c / pow10 k + 1)%N.
Proof. unfold round_shift. destruct (round_up r c k); lia. Qed.

(** Rounding away no digit changes nothing. *)
Lemma round_shift_none r c k : k <= 0 -> round_shift r c k = c.
Proof.
  intros Hk. unfold round_shift, round_up. rewrite (pow10_neg k Hk).
  rewrite N.div_1_r, N.mod_1_r.
  destruct r; cbn; reflexivity.
Qed.

(** The rounded coefficient is within half a unit of the exact quotient. *)
Lemma round_shift_near r c k :
  let p := pow10 k in
  (2 * c <= 2 * round_shift r c k * p + p /\
   2 * round_shift r c k * p <= 2 * c + p)%N.
Proof.
  intros p. pose proof (pow10_pos k) as Hp. fold p in Hp.
  unfold round_shift, round_up. fold p.
  pose proof (N.Div0.div_mod c p) as Hdm.
  pose proof (N.mod_lt c p ltac:(lia)) as Hm.
  set (q := (c / p)%N) in *. set (rm := (c mod p)%N) in *.
  assert (Hq : (p * q = q * p)%N) by lia.
  destruct r.
  - destruct (N.leb_spec p (2 * rm)); nia.
  - destruct ((2 * rm =? p)%N && N.even q) eqn:E.
    + apply andb_prop in E. destruct E as [E _].
      apply N.eqb_eq in E. nia.
    + destruct (N.leb_spec p (2 * rm)); nia.
Qed.

(** Half-up rounding takes the nearest multiple, the upper one on a tie. *)
Lemma round_half_up_unique c k t :
  let p := pow10 k in
  (2 * t * p <= 2 * c + p)%N -> (2 * c + p < 2 * (t + 1) * p)%N ->
  round_shift ROUND_HALF_UP c k = t.
Proof.
  intros p Hlo Hhi. pose proof (pow10_pos k) as Hp. fold p in Hp.
  unfold round_shift, round_up. fold p.
  pose proof (N.Div0.div_mod c p) as Hdm.
  pose proof (N.mod_lt c p ltac:(lia)) as Hm.
  set (q := (c / p)%N) in *. set (rm := (c mod p)%N) in *.
  destruct (N.leb_spec p (2 * rm)).
  - assert (q + 1 <= t)%N by nia. assert (t <= q + 1)%N by nia. lia.
  - assert (q <= t)%N by nia. assert (t <= q)%N by nia. lia.
Qed.

End Rounding.

(** ** Rounding to the context *)

Section Fix.

Lemma is_zero_true x : is_zero x = true -> dint x = 0%N.
Proof. unfold is_zero. apply N.eqb_eq. Qed.

Lemma is_zero_false x : is_zero x = false -> dint x <> 0%N.
Proof. unfold is_zero. apply N.eqb_neq. Qed.

(** A number that fits the context is left alone. *)
Lemma fix_id x :
  ndigits (dint x) <= prec -> Etiny <= dexp x -> adjusted x <= Emax ->
  dexp x <= Emax ->
  fix_ x = OK x.
Proof.
  intros Hd Hlo Hadj Hhi. unfold fix_.
  destruct (is_zero x) eqn:Hz.
  - apply is_zero_true in Hz. destruct x as [s c e]; cbn in *. subst c.
    rewrite Z.max_l by lia. rewrite Z.min_l by lia. reflexivity.
  - unfold adjusted, Etop in *. cbn zeta.
    destruct (Z.gtb_spec (ndigits (dint x) + dexp x - prec)
                (Emax - prec + 1)); [lia|].
    destruct (Z.ltb_spec (ndigits (dint x) + dexp x - prec) Etiny).
    + destruct (Z.ltb_spec (dexp x) Etiny); [lia|reflexivity].
    + destruct (Z.ltb_spec (dexp x) (ndigits (dint x) + dexp x - prec));
        [lia|reflexivity].
Qed.


End Fix.

(** ** [quant2] *)

Section Quant2.

(** What [quant2] returns is the argument rescaled to two places, half-up,
    and it has at most 28 digits. *)
Lemma quant2_inv x y :
  quant2 x = OK y ->
  y = rescale x (-2) ROUND_HALF_UP /\ ndigits (dint y) <= prec.
Proof.
  unfold quant2, d, quantize. cbn [EURO dexp negb andb].
  change (negb ((Etiny <=? -2) && (-2 <=? Emax))) with false. cbv iota.
  destruct (is_zero x) eqn:Hz.
  - unfold rescale. rewrite Hz. unfold fix_. cbn.
    intros [= <-]. split; [reflexivity|]. cbn. unfold prec. lia.
  - destruct (adjusted x >? Emax); [discriminate|].
    destruct (adjusted x - -2 + 1 >? prec); [discriminate|]. cbn zeta.
    destruct (Z.gtb_spec (adjusted (rescale x (-2) ROUND_HALF_UP)) Emax);
      [discriminate|].
    destruct (Z.gtb_spec (ndigits (dint (rescale x (-2) ROUND_HALF_UP))) prec);
      [discriminate|].
    rewrite fix_id; try assumption.
    + intros [= <-]. split; [reflexivity|assumption].
    + unfold rescale. rewrite Hz. destruct (-2 <=? dexp x); cbn; unfold Etiny, Emin, prec; lia.
    + unfold rescale. rewrite Hz. destruct (-2 <=? dexp x); cbn; unfold Emax; lia.
Qed.

Lemma quant2_exp x y : quant2 x = OK y -> dexp y = -2.
Proof.
  intros H. apply quant2_inv in H. destruct H as [-> _].
  unfold rescale. destruct (is_zero x); [reflexivity|].
  destruct (-2 <=? dexp x); reflexivity.
Qed.

Lemma quant2_sign x y : quant2 x = OK y -> dsign y = dsign x.
Proof.
  intros H. apply quant2_inv in H. destruct H as [-> _].
  unfold rescale. destruct (is_zero x); [reflexivity|].
  destruct (-2 <=? dexp x); reflexivity.
Qed.

(** [quant2] raises nothing but [InvalidOperation]. *)
Lemma quant2_raises x e : quant2 x = Raise e -> e = InvalidOperation.
Proof.
  unfold quant2, d, quantize. cbn [EURO dexp negb andb].
  change (negb ((Etiny <=? -2) && (-2 <=? Emax))) with false. cbv iota.
  destruct (is_zero x) eqn:Hz.
  - unfold fix_. cbn. discriminate.
  - destruct (adjusted x >? Emax); [congruence|].
    destruct (adjusted x - -2 + 1 >? prec); [congruence|]. cbn zeta.
    destruct (Z.gtb_spec (adjusted (rescale x (-2) ROUND_HALF_UP)) Emax);
      [congruence|].
    destruct (Z.gtb_spec (ndigits (dint (rescale x (-2) ROUND_HALF_UP))) prec);
      [congruence|].
    rewrite fix_id; try assumption; try discriminate.
    + unfold rescale. rewrite Hz. destruct (-2 <=? dexp x); cbn; unfold Etiny, Emin, prec; lia.
    + unfold rescale. rewrite Hz. destruct (-2 <=? dexp x); cbn; unfold Emax; lia.
Qed.

(** When [quant2] succeeds on a non-zero number, the number is below
    [10^26]. *)
Lemma quant2_adjusted x y :
  quant2 x = OK y -> is_zero x = false -> adjusted x <= 25.
Proof.
  unfold quant2, d, quantize. cbn [EURO dexp negb andb].
  change (negb ((Etiny <=? -2) && (-2 <=? Emax))) with false. cbv iota.
  intros H Hz. rewrite Hz in H.
  destruct (adjusted x >? Emax); [discriminate|].
  destruct (Z.gtb_spec (adjusted x - -2 + 1) prec); [discriminate|].
  unfold prec in *. lia.
Qed.

(** A sufficient condition for [quant2] to succeed. *)
Lemma quant2_ok x :
  is_zero x = false -> adjusted x <= 25 ->
  ndigits (dint (rescale x (-2) ROUND_HALF_UP)) <= prec ->
  quant2 x = OK (rescale x (-2) ROUND_HALF_UP).
Proof.
  intros Hz Hadj Hnd.
  unfold quant2, d, quantize. cbn [EURO dexp negb andb].
  change (negb ((Etiny <=? -2) && (-2 <=? Emax))) with false. cbv iota.
  rewrite Hz.
  assert (He : dexp (rescale x (-2) ROUND_HALF_UP) = -2).
  { unfold rescale. rewrite Hz. destruct (-2 <=? dexp x); reflexivity. }
  destruct (Z.gtb_spec (adjusted x) Emax); [unfold Emax in *; lia|].
  destruct (Z.gtb_spec (adjusted x - -2 + 1) prec); [unfold prec in *; lia|].
  cbn zeta.
  destruct (Z.gtb_spec (adjusted (rescale x (-2) ROUND_HALF_UP)) Emax).
  { unfold adjusted, Emax, prec in *. lia. }
  destruct (Z.gtb_spec (ndigits (dint (rescale x (-2) ROUND_HALF_UP))) prec);
    [lia|].
  apply fix_id; try assumption.
  - rewrite He. unfold Etiny, Emin, prec. lia.
  - rewrite He. unfold Emax. lia.
Qed.

Lemma quant2_zero x :
  is_zero x = true -> quant2 x = OK (mkDecimal (dsign x) 0 (-2)).
Proof.
  intros Hz. unfold quant2, d, quantize. cbn [EURO dexp negb andb].
  change (negb ((Etiny <=? -2) && (-2 <=? Emax))) with false. cbv iota.
  rewrite Hz. reflexivity.
Qed.

End Quant2.

Lemma midpoint_quotient k j :
  0 <= j ->
  (((10 * k + 5) * pow10 j) / pow10 (j + 1) = k /\
   ((10 * k + 5) * pow10 j) mod pow10 (j + 1) = 5 * pow10 j)%N.
Proof.
  intros Hj. rewrite (pow10_succ j Hj).
  pose proof (pow10_pos j) as Hp.
  rewrite N.Div0.div_mul_cancel_r by lia.
  rewrite N.Div0.mul_mod_distr_r.
  split; [lia|]. f_equal. lia.
Qed.

(** Rescaling a value that lies exactly between the cents [k] and [k + 1]:
    half-up takes [k + 1], half-even takes [k] when [k] is even. *)
Lemma rescale_midpoint s k j :
  0 <= j ->
  let x := mkDecimal s ((10 * k + 5) * pow10 j) (-3 - j) in
  is_zero x = false /\
  rescale x (-2) ROUND_HALF_UP = mkDecimal s (k + 1) (-2) /\
  (N.even k = true -> rescale x (-2) ROUND_HALF_EVEN = mkDecimal s k (-2)).
Proof.
  intros Hj x.
  pose proof (pow10_pos j) as Hp.
  destruct (midpoint_quotient k j Hj) as [Hq Hr].
  assert (Hz : is_zero x = false).
  { unfold is_zero, x; cbn [dint]. apply N.eqb_neq. nia. }
  assert (Hsh : -2 - dexp x = j + 1) by (unfold x; cbn [dexp]; lia).
  assert (Hle : (-2 <=? dexp x) = false).
  { apply Z.leb_gt. unfold x; cbn [dexp]; lia. }
  split; [exact Hz|]. split.
  - unfold rescale. rewrite Hz, Hle, Hsh. unfold round_shift, round_up, x.
    cbn [dint dsign]. rewrite Hq, Hr, (pow10_succ j Hj).
    destruct (N.leb_spec (10 * pow10 j) (2 * (5 * pow10 j)));
      [reflexivity|lia].
  - intros Hev. unfold rescale. rewrite Hz, Hle, Hsh.
    unfold round_shift, round_up, x. cbn [dint dsign].
    rewrite Hq, Hr, (pow10_succ j Hj), Hev.
    replace (2 * (5 * pow10 j) =? 10 * pow10 j)%N with true
      by (symmetry; apply N.eqb_eq; lia).
    reflexivity.
Qed.

(** ** C5: rounding is half-up *)

(** C5: a value exactly between two cents, [k] cents and a half (written
    with any number [j] of trailing zeros), is rounded by [quant2] to
    [k + 1] cents, away from zero, with the sign kept: this is the result
    whenever there is one, and there is one as long as [k + 1] fits the 28
    digits of the context.  Half-even rounding would give [k] for an even
    [k] (12.34 for 12.345). *)
Theorem quant2_round_half_up (s : bool) (k : N) (j : Z) :
  0 <= j ->
  let x := mkDecimal s ((10 * k + 5) * pow10 j) (-3 - j) in
  (forall y, quant2 x = OK y -> y = mkDecimal s (k + 1) (-2)) /\
  ((k + 1 < 10 ^ 28)%N -> quant2 x = OK (mkDecimal s (k + 1) (-2))) /\
  (N.even k = true -> rescale x (-2) ROUND_HALF_EVEN = mkDecimal s k (-2)).
Proof.
  intros Hj x.
  destruct (rescale_midpoint s k j Hj) as (Hz & Hup & Hev).
  fold x in Hz, Hup, Hev.
  pose proof (pow10_pos j) as Hp.
  split; [|split; [|exact Hev]].
  - intros y Hy. apply quant2_inv in Hy. destruct Hy as [-> _]. exact Hup.
  - intros Hk. rewrite <- Hup. apply quant2_ok; try assumption.
    + unfold adjusted, x. cbn [dint dexp].
      enough (ndigits ((10 * k + 5) * pow10 j) <= j + 29) by lia.
      apply ndigits_le; [lia|].
      rewrite Z.add_comm, pow10_add by lia.
      change (pow10 29) with (10 ^ 29)%N. nia.
    + rewrite Hup. cbn [dint]. apply ndigits_le; [unfold prec; lia|].
      exact Hk.
Qed.

Lemma quant2_round_half_up_witness :
  quant2 (mkDecimal false 12345 (-3)) = OK (mkDecimal false 1235 (-2)) /\
  rescale (mkDecimal false 12345 (-3)) (-2) ROUND_HALF_EVEN
  = mkDecimal false 1234 (-2).
Proof.
  destruct (quant2_round_half_up false 1234 0) as (_ & H2 & H3); [lia|].
  split; [apply H2; reflexivity | apply H3; reflexivity].
Defined.

Section FixRound.

(** Dropping the digits beyond the precision leaves 28 digits. *)
Lemma drop_digits_bounds c k :
  (0 < c)%N -> k = ndigits c - prec -> 0 < k ->
  (pow10 27 <= c / pow10 k < pow10 28)%N.
Proof.
  intros Hc Hk Hpos. destruct (ndigits_spec c Hc) as [Hlo Hhi].
  pose proof (pow10_pos k) as Hp. unfold prec in Hk.
  replace (ndigits c - 1) with (k + 27) in Hlo by lia.
  replace (ndigits c) with (k + 28) in Hhi by lia.
  rewrite pow10_add in Hlo, Hhi by lia.
  split.
  - apply N.div_le_lower_bound; lia.
  - apply N.Div0.div_lt_upper_bound; lia.
Qed.

(** [_fix] on a number with too many digits, outside the subnormal range:
    the coefficient is rounded half-even to 28 digits, and a carry out of
    the top digit moves the exponent up by one. *)
Lemma fix_round x :
  let k := ndigits (dint x) - prec in
  let e := dexp x + k in
  let R := round_shift ROUND_HALF_EVEN (dint x) k in
  is_zero x = false -> 0 < k -> Etiny <= e ->
  (pow10 27 <= R <= pow10 28)%N /\
  fix_ x =
    if e >? Etop then Raise Overflow
    else if (R <? pow10 28)%N then OK (mkDecimal (dsign x) R e)
    else if e + 1 >? Etop then Raise Overflow
    else OK (mkDecimal (dsign x) (pow10 27) (e + 1)).
Proof.
  intros k e R Hz Hk He.
  assert (Hc : (0 < dint x)%N) by (apply is_zero_false in Hz; lia).
  destruct (drop_digits_bounds (dint x) k Hc eq_refl Hk) as [Hlo Hhi]. fold k in Hlo, Hhi.
  pose proof (round_shift_lower ROUND_HALF_EVEN (dint x) k) as HRl.
  pose proof (round_shift_upper ROUND_HALF_EVEN (dint x) k) as HRu.
  fold R in HRl, HRu.
  split; [lia|].
  unfold fix_. rewrite Hz. cbn zeta.
  replace (ndigits (dint x) + dexp x - prec) with e by (unfold e, k; lia).
  destruct (e >? Etop) eqn:Htop; [reflexivity|].
  destruct (Z.ltb_spec e Etiny); [lia|].
  destruct (Z.ltb_spec (dexp x) e); [|unfold e in *; lia].
  replace (e - dexp x) with k by (unfold e; lia).
  unfold R, round_shift in *.
  destruct (round_up ROUND_HALF_EVEN (dint x) k).
  - destruct (N.ltb_spec (dint x / pow10 k + 1) (pow10 28)) as [Hlt|Hge].
    + destruct (Z.gtb_spec (ndigits (dint x / pow10 k + 1)) prec) as [Hg|Hg].
      * apply ndigits_low in Hg; [|lia]. unfold prec in Hg. lia.
      * rewrite Htop. reflexivity.
    + destruct (Z.gtb_spec (ndigits (dint x / pow10 k + 1)) prec) as [Hg|Hg].
      * replace (dint x / pow10 k + 1)%N with (pow10 28) by lia.
        reflexivity.
      * apply ndigits_bound in Hg. unfold prec in Hg. lia.
  - destruct (N.ltb_spec (dint x / pow10 k) (pow10 28)); [|lia].
    rewrite Htop. reflexivity.
Qed.

(** After such a rounding the coefficient has exactly 28 digits. *)
Lemma fix_round_digits x y :
  is_zero x = false -> prec < ndigits (dint x) ->
  Etiny <= dexp x + (ndigits (dint x) - prec) ->
  fix_ x = OK y ->
  is_zero y = false /\ ndigits (dint y) = prec /\ dexp x < dexp y.
Proof.
  intros Hz Hnd He Hfix.
  destruct (fix_round x Hz ltac:(lia) He) as [[Hlo Hhi] Heq].
  rewrite Heq in Hfix. clear Heq.
  set (R := round_shift ROUND_HALF_EVEN (dint x) (ndigits (dint x) - prec)) in *.
  destruct (_ >? Etop); [discriminate|].
  destruct (N.ltb_spec R (pow10 28)) as [Hlt|Hge].
  - injection Hfix as <-. unfold is_zero. cbn [dint dexp].
    repeat split.
    + apply N.eqb_neq. change (pow10 27) with (10 ^ 27)%N in Hlo. lia.
    + apply ndigits_unique; [unfold prec; lia|].
      unfold prec. change (28 - 1) with 27. lia.
    + lia.
  - destruct (_ >? Etop); [discriminate|].
    injection Hfix as <-. unfold is_zero. cbn [dint dexp].
    split; [reflexivity|]. split; [vm_compute; reflexivity|lia].
Qed.

End FixRound.

Section Exact.

(** At the exponent -2, an operation's result survives [_fix] and [quant2]
    only if it was exact: more than 28 digits would be rounded to a number
    of at least [10^26], which [quant2] refuses. *)
Lemma fix_quant2_exact x y z :
  dexp x = -2 -> fix_ x = OK y -> quant2 y = OK z ->
  y = x /\ z = x /\ ndigits (dint x) <= prec.
Proof.
  intros He Hfix Hq.
  destruct (is_zero x) eqn:Hz.
  - pose proof (is_zero_true _ Hz) as Hc.
    destruct x as [s c e]; cbn in He, Hc; subst.
    unfold fix_ in Hfix. cbn in Hfix. injection Hfix as <-.
    rewrite quant2_zero in Hq by reflexivity. injection Hq as <-.
    repeat split. cbn. unfold prec. lia.
  - destruct (Z_le_gt_dec (ndigits (dint x)) prec) as [Hnd|Hnd].
    + rewrite fix_id in Hfix.
      * injection Hfix as <-. apply quant2_inv in Hq. destruct Hq as [-> _].
        repeat split; [|assumption].
        unfold rescale. rewrite Hz, He. cbn.
        destruct x as [s c e]; cbn in *. subst e. f_equal. lia.
      * assumption.
      * rewrite He. unfold Etiny, Emin, prec. lia.
      * unfold adjusted, Emax, prec in *. lia.
      * rewrite He. unfold Emax. lia.
    + exfalso.
      destruct (fix_round_digits x y Hz) as (Hzy & Hndy & Hey);
        [lia | unfold Etiny, Emin, prec in *; lia | assumption |].
      pose proof (quant2_adjusted y z Hq Hzy) as Hadj.
      unfold adjusted, prec in *. lia.
Qed.

Lemma cents_copy_negate x : cents (copy_negate x) = - cents x.
Proof. unfold cents, copy_negate. cbn. destruct (dsign x); cbn; lia. Qed.

(** Adding two amounts of cents: the sum handed to [_fix] is exact. *)
Lemma add_cents a b :
  dexp a = -2 -> dexp b = -2 ->
  ndigits (dint a) <= prec -> ndigits (dint b) <= prec ->
  exists x, add a b = fix_ x /\ dexp x = -2 /\ cents x = cents a + cents b.
Proof.
  intros Ha Hb Hna Hnb. unfold add. rewrite Ha, Hb.
  change (Z.min (-2) (-2)) with (-2). cbn zeta.
  change (Z.max (-2) (-2 - prec - 1)) with (-2).
  destruct (is_zero a) eqn:Hza, (is_zero b) eqn:Hzb; cbn [andb].
  - eexists. split; [reflexivity|]. split; [reflexivity|].
    apply is_zero_true in Hza, Hzb. unfold cents. cbn. rewrite Hza, Hzb.
    destruct (dsign a), (dsign b); reflexivity.
  - eexists. split; [reflexivity|]. unfold rescale. rewrite Hzb, Hb. cbn.
    split; [reflexivity|].
    apply is_zero_true in Hza. unfold cents. cbn. rewrite Hza.
    destruct (dsign a), (dsign b); lia.
  - eexists. split; [reflexivity|]. unfold rescale. rewrite Hza, Ha. cbn.
    split; [reflexivity|].
    apply is_zero_true in Hzb. unfold cents. cbn. rewrite Hzb.
    destruct (dsign a), (dsign b); lia.
  - unfold normalize. change (-2 <? -2) with false. cbv iota.
    pose proof (ndigits_pos (dint a)). pose proof (ndigits_pos (dint b)).
    rewrite Z.min_r by (unfold prec in *; lia).
    destruct (Z.ltb_spec (ndigits (dint b) + -2 - 1)
                (-2 + (ndigits (dint a) - prec - 2)));
      [unfold prec in *; lia|].
    change (pow10 (-2 - -2)) with 1%N. rewrite N.mul_1_r.
    destruct (Bool.eqb (dsign a) (dsign b)) eqn:Hs.
    + eexists. split; [reflexivity|]. split; [reflexivity|].
      apply Bool.eqb_prop in Hs. unfold cents. cbn. rewrite Hs.
      destruct (dsign b); lia.
    + apply Bool.eqb_false_iff in Hs.
      destruct (N.eqb_spec (dint a) (dint b)) as [Heq|Hne].
      * eexists. split; [reflexivity|]. split; [reflexivity|].
        unfold cents. cbn. rewrite Heq.
        destruct (dsign a), (dsign b); try congruence; lia.
      * destruct (N.ltb_spec (dint a) (dint b)).
        -- eexists. split; [reflexivity|]. split; [reflexivity|].
           unfold cents. cbn.
           destruct (dsign a), (dsign b); try congruence; lia.
        -- eexists. split; [reflexivity|]. split; [reflexivity|].
           unfold cents. cbn.
           destruct (dsign a), (dsign b); try congruence; lia.
Qed.

(** Subtracting two rounded amounts and rounding the difference gives the
    exact difference. *)
Lemma sub_quant2_exact a b t z :
  dexp a = -2 -> dexp b = -2 ->
  ndigits (dint a) <= prec -> ndigits (dint b) <= prec ->
  sub a b = OK t -> quant2 t = OK z ->
  dexp z = -2 /\ cents z = cents a - cents b.
Proof.
  intros Ha Hb Hna Hnb Hsub Hq. unfold sub in Hsub.
  destruct (add_cents a (copy_negate b)) as (x & Hadd & Hex & Hcx);
    try assumption.
  rewrite Hadd in Hsub.
  destruct (fix_quant2_exact x t z Hex Hsub Hq) as (_ & -> & _).
  rewrite Hcx, cents_copy_negate. split; [assumption|lia].
Qed.

(** Multiplying a rounded amount by a number of years and rounding the
    product gives the exact product. *)
Lemma mul_years_quant2_exact a n t z :
  dexp a = -2 ->
  mul a (of_int n) = OK t -> quant2 t = OK z ->
  dexp z = -2 /\ cents z = cents a * n.
Proof.
  intros Ha Hmul Hq. unfold mul in Hmul.
  match type of Hmul with fix_ ?x = _ => set (x0 := x) in * end.
  assert (He : dexp x0 = -2) by (unfold x0; cbn; lia).
  destruct (fix_quant2_exact x0 t z He Hmul Hq) as (_ & -> & _).
  split; [assumption|].
  unfold cents, x0, of_int. cbn.
  destruct (dsign a), (Z.ltb_spec n 0); cbn; nia.
Qed.

End Exact.

(** ** [berechne], step by step *)

Section Berechne.

(** [berechne] in terms of the named expressions. *)
Lemma berechne_unfold i :
  berechne i =
    (mess <- truediv (messzahl_permille i) Decimal_1000 ;;
     heb <- truediv (hebesatz_prozent i) Decimal_100 ;;
     steuer_now <- steuer (grundsteuerwert i) mess heb ;;
     vmax <- schwelle (grundsteuerwert i) ;;
     steuer_vmax <- steuer vmax mess heb ;;
     jahr <- ersparnis_jahr steuer_now steuer_vmax ;;
     gesamt <- ersparnis_gesamt jahr (years i) ;;
     match custom_verkehrswert i with
     | None =>
         OK (mkResults steuer_now vmax steuer_vmax jahr gesamt None None None)
     | Some cv =>
         c <- szenario cv mess heb steuer_now (years i) ;;
         let '(sc, jc, gc) := c in
         OK (mkResults steuer_now vmax steuer_vmax jahr gesamt
               (Some sc) (Some jc) (Some gc))
     end).
Proof.
  unfold berechne, szenario, steuer, schwelle, ersparnis_jahr,
    ersparnis_gesamt, d.
  repeat match goal with
  | |- context [bind ?m _] =>
      lazymatch m with
      | bind _ _ => fail
      | _ => destruct m; cbn [bind]; try reflexivity
      end
  | |- context [match ?o with Some _ => _ | None => _ end] =>
      destruct o; try reflexivity
  end.
Qed.

Lemma berechne_inv i r :
  berechne i = OK r ->
  exists mess heb,
    truediv (messzahl_permille i) Decimal_1000 = OK mess /\
    truediv (hebesatz_prozent i) Decimal_100 = OK heb /\
    steuer (grundsteuerwert i) mess heb = OK (steuer_status_quo r) /\
    schwelle (grundsteuerwert i) = OK (schwelle_40_prozent r) /\
    steuer (schwelle_40_prozent r) mess heb
      = OK (steuer_beim_schwellenwert r) /\
    ersparnis_jahr (steuer_status_quo r) (steuer_beim_schwellenwert r)
      = OK (ersparnis_pro_jahr_schwelle r) /\
    ersparnis_gesamt (ersparnis_pro_jahr_schwelle r) (years i)
      = OK (ersparnis_gesamt_schwelle r) /\
    match custom_verkehrswert i with
    | None =>
        steuer_beim_custom r = None /\ ersparnis_pro_jahr_custom r = None /\
        ersparnis_gesamt_custom r = None
    | Some cv =>
        exists sc jc gc,
          szenario cv mess heb (steuer_status_quo r) (years i)
            = OK (sc, jc, gc) /\
          steuer_beim_custom r = Some sc /\
          ersparnis_pro_jahr_custom r = Some jc /\
          ersparnis_gesamt_custom r = Some gc
    end.
Proof.
  rewrite berechne_unfold. intros H.
  do 7 bind_inv H.
  exists a, a0.
  destruct (custom_verkehrswert i) as [cv|].
  - bind_inv H. destruct a6 as [[sc jc] gc]. injection H as <-. cbn.
    repeat match goal with
           | |- _ /\ _ => split; [first [assumption | reflexivity]|]
           end.
    exists sc, jc, gc. split; [assumption|]. repeat split.
  - injection H as <-. cbn. repeat split; first [assumption | reflexivity].
Qed.

Lemma quantized_two_places x : quantized x -> two_places x.
Proof.
  intros [t H].
  split; [exact (quant2_exp _ _ H) | exact (proj2 (quant2_inv _ _ H))].
Qed.

Lemma quantized_half_up x :
  quantized x -> exists t, x = rescale t (-2) ROUND_HALF_UP.
Proof. intros [t H]. exists t. exact (proj1 (quant2_inv _ _ H)). Qed.

Lemma steuer_quantized w m h s : steuer w m h = OK s -> quantized s.
Proof. unfold steuer. intros H. do 2 bind_inv H. eexists; eassumption. Qed.

Lemma schwelle_quantized g v : schwelle g = OK v -> quantized v.
Proof. unfold schwelle. intros H. bind_inv H. eexists; eassumption. Qed.

Lemma ersparnis_jahr_quantized a b j :
  ersparnis_jahr a b = OK j -> quantized j.
Proof. unfold ersparnis_jahr. intros H. bind_inv H. eexists; eassumption. Qed.

Lemma ersparnis_gesamt_quantized j n g :
  ersparnis_gesamt j n = OK g -> quantized g.
Proof.
  unfold ersparnis_gesamt. intros H. bind_inv H. eexists; eassumption.
Qed.

Lemma szenario_inv w m h now n sc jc gc :
  szenario w m h now n = OK (sc, jc, gc) ->
  steuer w m h = OK sc /\ ersparnis_jahr now sc = OK jc /\
  ersparnis_gesamt jc n = OK gc.
Proof.
  unfold szenario. intros H. do 3 bind_inv H. injection H as <- <- <-.
  repeat split; assumption.
Qed.

(** The saving per year is the exact difference of the two rounded taxes. *)
Lemma ersparnis_jahr_exact a b j :
  two_places a -> two_places b -> ersparnis_jahr a b = OK j ->
  cents j = cents a - cents b.
Proof.
  intros [Ha Hna] [Hb Hnb] H. unfold ersparnis_jahr in H. bind_inv H.
  apply (sub_quant2_exact a b a0 j Ha Hb Hna Hnb E H).
Qed.

(** The total saving is the exact product with the years. *)
Lemma ersparnis_gesamt_exact j n g :
  two_places j -> ersparnis_gesamt j n = OK g -> cents g = cents j * n.
Proof.
  intros [Hj _] H. unfold ersparnis_gesamt in H. bind_inv H.
  apply (mul_years_quant2_exact j n a g Hj E H).
Qed.

(** Multiplying by zero gives zero. *)
Lemma mul_zero a b t :
  mul a b = OK t -> is_zero a = true \/ is_zero b = true ->
  is_zero t = true.
Proof.
  unfold mul, fix_, is_zero. cbn [dint dsign dexp]. intros H Hz.
  assert (dint a * dint b = 0)%N as Hp.
  { destruct Hz as [Hz|Hz]; apply N.eqb_eq in Hz; rewrite Hz; lia. }
  rewrite Hp in H. cbn [N.eqb] in H. injection H as <-. reflexivity.
Qed.

Lemma steuer_zero w m h s :
  steuer w m h = OK s -> is_zero w = true -> dint s = 0%N.
Proof.
  unfold steuer. intros H Hz. do 2 bind_inv H.
  pose proof (mul_zero w m a E (or_introl Hz)) as Hz1.
  pose proof (mul_zero a h a0 E0 (or_introl Hz1)) as Hz2.
  rewrite (quant2_zero a0 Hz2) in H. injection H as <-. reflexivity.
Qed.

Lemma schwelle_zero g v :
  schwelle g = OK v -> is_zero g = true -> dint v = 0%N.
Proof.
  unfold schwelle, truediv. intros H Hz.
  change (is_zero Decimal_1_4) with false in H. cbv iota in H. rewrite Hz in H.
  unfold fix_, is_zero in H. cbn [dint dsign dexp N.eqb bind] in H.
  rewrite quant2_zero in H by reflexivity. injection H as <-. reflexivity.
Qed.

Lemma cents_zero x : cents x = 0 <-> dint x = 0%N.
Proof. unfold cents. destruct (dsign x); lia. Qed.

End Berechne.

(** * The properties of the specification *)

(** ** C1: end-to-end scenario A *)

(** Counterexample to C1 as stated: on scenario A the current tax is not
    1503.08. *)
Lemma scenario_A_tax_current_not_1503_08 :
  ~ exists r, berechne scenario_A = OK r /\
              steuer_status_quo r = mkDecimal false 150308 (-2).
Proof.
  intros (r & Hr & Hs). vm_compute in Hr. injection Hr as <-.
  discriminate Hs.
Qed.

(** C1 (amended): on scenario A (assessed value 1031600, rate 0.31 per
    mille, municipal rate 470 percent, 4 years, no custom value) [berechne]
    returns the current tax 1503.04, the threshold value 736857.14, the tax
    at the threshold [quant2(736857.14 * 0.00031 * 4.70)], which is 1073.60,
    and total savings of 4 times the difference of the two taxes, 1717.76. *)
Theorem scenario_A_result :
  berechne scenario_A = OK result_A /\
  steuer_status_quo result_A = mkDecimal false 150304 (-2) /\
  schwelle_40_prozent result_A = mkDecimal false 73685714 (-2) /\
  steuer (mkDecimal false 73685714 (-2)) (mkDecimal false 31 (-5))
         (mkDecimal false 470 (-2))
    = OK (steuer_beim_schwellenwert result_A) /\
  steuer_beim_schwellenwert result_A = mkDecimal false 107360 (-2) /\
  cents (ersparnis_gesamt_schwelle result_A)
    = 4 * (cents (steuer_status_quo result_A)
           - cents (steuer_beim_schwellenwert result_A)) /\
  ersparnis_gesamt_schwelle result_A = mkDecimal false 171776 (-2).
Proof. repeat split; vm_compute; reflexivity. Qed.

(** ** C4: savings are computed from the rounded taxes *)

(** C4: whenever [berechne] returns, the two taxes are values rounded by
    [quant2], the saving per year is exactly their difference in cents (the
    context's 28 digits and the final [quant2] change nothing), and the
    total saving is exactly the saving per year times the years, which is
    its own rounding to two decimals. *)
Theorem savings_from_rounded_taxes i r :
  berechne i = OK r ->
  quantized (steuer_status_quo r) /\
  quantized (steuer_beim_schwellenwert r) /\
  two_places (ersparnis_pro_jahr_schwelle r) /\
  cents (ersparnis_pro_jahr_schwelle r)
    = cents (steuer_status_quo r) - cents (steuer_beim_schwellenwert r) /\
  ersparnis_gesamt (ersparnis_pro_jahr_schwelle r) (years i)
    = OK (ersparnis_gesamt_schwelle r) /\
  two_places (ersparnis_gesamt_schwelle r) /\
  cents (ersparnis_gesamt_schwelle r)
    = cents (ersparnis_pro_jahr_schwelle r) * years i.
Proof.
  intros H.
  destruct (berechne_inv i r H)
    as (mess & heb & _ & _ & Hnow & _ & Hsv & Hj & Hg & _).
  pose proof (steuer_quantized _ _ _ _ Hnow) as Qnow.
  pose proof (steuer_quantized _ _ _ _ Hsv) as Qsv.
  pose proof (quantized_two_places _ (ersparnis_jahr_quantized _ _ _ Hj)) as Tj.
  repeat split; try assumption.
  - apply Tj.
  - apply Tj.
  - apply ersparnis_jahr_exact; auto using quantized_two_places.
  - apply (quantized_two_places _ (ersparnis_gesamt_quantized _ _ _ Hg)).
  - apply (quantized_two_places _ (ersparnis_gesamt_quantized _ _ _ Hg)).
  - apply (ersparnis_gesamt_exact _ _ _ Tj Hg).
Qed.

Lemma savings_from_rounded_taxes_witness :
  berechne scenario_A = OK result_A /\
  cents (ersparnis_pro_jahr_schwelle result_A)
    = cents (steuer_status_quo result_A)
      - cents (steuer_beim_schwellenwert result_A) /\
  cents (ersparnis_gesamt_schwelle result_A)
    = cents (ersparnis_pro_jahr_schwelle result_A) * years scenario_A.
Proof.
  assert (H : berechne scenario_A = OK result_A) by (vm_compute; reflexivity).
  split; [exact H|].
  destruct (savings_from_rounded_taxes scenario_A result_A H)
    as (_ & _ & _ & Hj & _ & _ & Hg).
  split; [exact Hj | exact Hg].
Defined.

(** An input on which the order matters: with the assessed value 1.004 and
    both factors 1, the rounded taxes 1.00 and 0.72 differ by 0.28, while
    the unrounded difference 1.004 - 0.7171... rounds to 0.29. *)
Example round_then_subtract :
  let i := mkInputs (mkDecimal false 1004 (-3)) (mkDecimal false 1000 0)
             (mkDecimal false 100 0) 1 None in
  (exists r, berechne i = OK r /\
     ersparnis_pro_jahr_schwelle r = mkDecimal false 28 (-2)) /\
  (mess <- truediv (messzahl_permille i) Decimal_1000 ;;
   heb <- truediv (hebesatz_prozent i) Decimal_100 ;;
   a <- mul (grundsteuerwert i) mess ;; a <- mul a heb ;;
   v <- truediv (grundsteuerwert i) Decimal_1_4 ;;
   b <- mul v mess ;; b <- mul b heb ;;
   t <- sub a b ;; quant2 t) = OK (mkDecimal false 29 (-2)).
Proof.
  split; [eexists; split|]; vm_compute; reflexivity.
Qed.

(** ** C7: an omitted custom value and a custom value of zero *)

(** C7: when [berechne] returns and the custom value was omitted, the three
    custom fields are [None]; when a custom value of zero was supplied, they
    are present, the custom tax is zero and the custom saving per year
    equals the current tax. *)
Theorem custom_omitted_or_zero i r :
  berechne i = OK r ->
  (custom_verkehrswert i = None ->
   steuer_beim_custom r = None /\ ersparnis_pro_jahr_custom r = None /\
   ersparnis_gesamt_custom r = None) /\
  (forall cv, custom_verkehrswert i = Some cv -> dint cv = 0%N ->
   exists sc jc gc,
     steuer_beim_custom r = Some sc /\
     ersparnis_pro_jahr_custom r = Some jc /\
     ersparnis_gesamt_custom r = Some gc /\
     dint sc = 0%N /\ dexp sc = -2 /\
     dexp jc = -2 /\ cents jc = cents (steuer_status_quo r)).
Proof.
  intros H.
  destruct (berechne_inv i r H)
    as (mess & heb & _ & _ & Hnow & _ & _ & _ & _ & Hc).
  split.
  - intros Hnone. rewrite Hnone in Hc. exact Hc.
  - intros cv Hsome Hzero. rewrite Hsome in Hc.
    destruct Hc as (sc & jc & gc & Hsz & H1 & H2 & H3).
    apply szenario_inv in Hsz. destruct Hsz as (Hsc & Hjc & Hgc).
    exists sc, jc, gc.
    assert (Hz : dint sc = 0%N).
    { apply (steuer_zero _ _ _ _ Hsc). unfold is_zero. rewrite Hzero.
      reflexivity. }
    pose proof (quantized_two_places _ (steuer_quantized _ _ _ _ Hsc)) as Tsc.
    pose proof (quantized_two_places _ (steuer_quantized _ _ _ _ Hnow)) as Tn.
    pose proof (quantized_two_places _ (ersparnis_jahr_quantized _ _ _ Hjc))
      as Tjc.
    repeat split; try assumption.
    + apply Tsc.
    + apply Tjc.
    + rewrite (ersparnis_jahr_exact _ _ _ Tn Tsc Hjc).
      apply cents_zero in Hz. lia.
Qed.

Lemma custom_omitted_or_zero_witness :
  berechne scenario_zero = OK result_zero /\
  exists sc jc gc,
    steuer_beim_custom result_zero = Some sc /\
    ersparnis_pro_jahr_custom result_zero = Some jc /\
    ersparnis_gesamt_custom result_zero = Some gc /\
    dint sc = 0%N /\ dexp sc = -2 /\
    dexp jc = -2 /\ cents jc = cents (steuer_status_quo result_zero).
Proof.
  assert (H : berechne scenario_zero = OK result_zero)
    by (vm_compute; reflexivity).
  split; [exact H|].
  exact (proj2 (custom_omitted_or_zero scenario_zero result_zero H)
           (mkDecimal false 0 0) eq_refl eq_refl).
Defined.

(** ** C8: the custom value leaves the other fields alone *)

(** C8: whenever [berechne] returns, it also returns on the same inputs
    without the custom value, with the same five non-custom fields and no
    custom field; each custom field is present exactly when a custom value
    was supplied; and the threshold fields and the custom fields are the
    same expression [szenario], at the threshold value and at the custom
    value. *)
Theorem custom_frame i r :
  berechne i = OK r ->
  (exists r0,
     berechne (ohne_custom i) = OK r0 /\
     steuer_status_quo r0 = steuer_status_quo r /\
     schwelle_40_prozent r0 = schwelle_40_prozent r /\
     steuer_beim_schwellenwert r0 = steuer_beim_schwellenwert r /\
     ersparnis_pro_jahr_schwelle r0 = ersparnis_pro_jahr_schwelle r /\
     ersparnis_gesamt_schwelle r0 = ersparnis_gesamt_schwelle r /\
     steuer_beim_custom r0 = None /\ ersparnis_pro_jahr_custom r0 = None /\
     ersparnis_gesamt_custom r0 = None) /\
  (steuer_beim_custom r <> None <-> custom_verkehrswert i <> None) /\
  (ersparnis_pro_jahr_custom r <> None <-> custom_verkehrswert i <> None) /\
  (ersparnis_gesamt_custom r <> None <-> custom_verkehrswert i <> None) /\
  exists mess heb,
    truediv (messzahl_permille i) Decimal_1000 = OK mess /\
    truediv (hebesatz_prozent i) Decimal_100 = OK heb /\
    szenario (schwelle_40_prozent r) mess heb (steuer_status_quo r) (years i)
      = OK (steuer_beim_schwellenwert r, ersparnis_pro_jahr_schwelle r,
            ersparnis_gesamt_schwelle r) /\
    forall cv, custom_verkehrswert i = Some cv ->
      exists sc jc gc,
        szenario cv mess heb (steuer_status_quo r) (years i)
          = OK (sc, jc, gc) /\
        steuer_beim_custom r = Some sc /\
        ersparnis_pro_jahr_custom r = Some jc /\
        ersparnis_gesamt_custom r = Some gc.
Proof.
  intros H.
  destruct (berechne_inv i r H)
    as (mess & heb & Hm & Hh & Hnow & Hv & Hsv & Hj & Hg & Hc).
  split; [|split; [|split; [|split]]].
  - exists (mkResults (steuer_status_quo r) (schwelle_40_prozent r)
              (steuer_beim_schwellenwert r) (ersparnis_pro_jahr_schwelle r)
              (ersparnis_gesamt_schwelle r) None None None).
    split; [|repeat split].
    rewrite berechne_unfold. unfold ohne_custom.
    cbn [grundsteuerwert messzahl_permille hebesatz_prozent years
         custom_verkehrswert].
    rewrite Hm, Hh. cbn [bind]. rewrite Hnow, Hv. cbn [bind].
    rewrite Hsv. cbn [bind]. rewrite Hj. cbn [bind]. rewrite Hg.
    reflexivity.
  - destruct (custom_verkehrswert i).
    + destruct Hc as (sc & jc & gc & _ & -> & _). split; discriminate.
    + destruct Hc as (-> & _). split; intros HH; contradiction.
  - destruct (custom_verkehrswert i).
    + destruct Hc as (sc & jc & gc & _ & _ & -> & _). split; discriminate.
    + destruct Hc as (_ & -> & _). split; intros HH; contradiction.
  - destruct (custom_verkehrswert i).
    + destruct Hc as (sc & jc & gc & _ & _ & _ & ->). split; discriminate.
    + destruct Hc as (_ & _ & ->). split; intros HH; contradiction.
  - exists mess, heb. split; [assumption|]. split; [assumption|]. split.
    + unfold szenario. rewrite Hsv. cbn [bind]. rewrite Hj. cbn [bind].
      rewrite Hg. reflexivity.
    + intros cv Hsome. rewrite Hsome in Hc. exact Hc.
Qed.

Lemma custom_frame_witness :
  berechne scenario_B = OK result_B /\
  exists r0,
    berechne (ohne_custom scenario_B) = OK r0 /\
    steuer_status_quo r0 = steuer_status_quo result_B /\
    schwelle_40_prozent r0 = schwelle_40_prozent result_B /\
    steuer_beim_schwellenwert r0 = steuer_beim_schwellenwert result_B /\
    ersparnis_pro_jahr_schwelle r0 = ersparnis_pro_jahr_schwelle result_B /\
    ersparnis_gesamt_schwelle r0 = ersparnis_gesamt_schwelle result_B /\
    steuer_beim_custom r0 = None /\ ersparnis_pro_jahr_custom r0 = None /\
    ersparnis_gesamt_custom r0 = None.
Proof.
  assert (H : berechne scenario_B = OK result_B) by (vm_compute; reflexivity).
  split; [exact H|].
  exact (proj1 (custom_frame scenario_B result_B H)).
Defined.

(** ** C9: every monetary field is rounded to two decimals *)

(** What [quant2] returns is its argument rounded half-up to two decimals. *)
Lemma quant2_rounds_half_up t y : quant2 t = OK y -> rounds_half_up t y.
Proof.
  intros H. split; [exact (quant2_sign t y H)|].
  split; [exact (quant2_exp t y H)|].
  destruct (quant2_inv t y H) as (-> & _).
  unfold rescale, div_half_up.
  pose proof (pow10_pos (-2 - dexp t)) as Hp.
  destruct (is_zero t) eqn:Z.
  - apply is_zero_true in Z. rewrite Z. cbn [dint].
    rewrite N.mul_0_l, N.mul_0_r, N.add_0_l.
    symmetry. apply N.div_small. lia.
  - destruct (-2 <=? dexp t) eqn:E; cbn [dint].
    + apply Z.leb_le in E. rewrite (pow10_neg (-2 - dexp t)) by lia.
      replace (dexp t - -2) with (dexp t + 2) by lia.
      generalize (dint t * pow10 (dexp t + 2))%N. intros n. lia.
    + apply Z.leb_gt in E. rewrite (pow10_neg (dexp t + 2)) by lia.
      rewrite N.mul_1_r. apply round_half_up_unique; cbv zeta.
      * generalize dependent (pow10 (-2 - dexp t)). intros p Hp.
        pose proof (N.Div0.div_mod (2 * dint t + p) (2 * p)) as Hd.
        pose proof (N.mod_lt (2 * dint t + p) (2 * p) ltac:(lia)).
        nia.
      * generalize dependent (pow10 (-2 - dexp t)). intros p Hp.
        pose proof (N.Div0.div_mod (2 * dint t + p) (2 * p)) as Hd.
        pose proof (N.mod_lt (2 * dint t + p) (2 * p) ltac:(lia)).
        nia.
Qed.

Lemma steuer_finalized w m h s :
  steuer w m h = OK s -> finalized (t <- mul w m ;; mul t h) s.
Proof.
  unfold steuer. intros H. bind_inv H. bind_inv H.
  exists a0. cbn [bind]. split; [exact E0|].
  split; [exact H | exact (quant2_rounds_half_up _ _ H)].
Qed.

Lemma schwelle_finalized g v :
  schwelle g = OK v -> finalized (truediv g Decimal_1_4) v.
Proof.
  unfold schwelle. intros H. bind_inv H.
  exists a. split; [reflexivity|].
  split; [exact H | exact (quant2_rounds_half_up _ _ H)].
Qed.

Lemma ersparnis_jahr_finalized a b j :
  ersparnis_jahr a b = OK j -> finalized (sub a b) j.
Proof.
  unfold ersparnis_jahr. intros H. bind_inv H.
  exists a0. split; [reflexivity|].
  split; [exact H | exact (quant2_rounds_half_up _ _ H)].
Qed.

Lemma ersparnis_gesamt_finalized j n g :
  ersparnis_gesamt j n = OK g -> finalized (mul j (of_int n)) g.
Proof.
  unfold ersparnis_gesamt. intros H. bind_inv H.
  exists a. split; [reflexivity|].
  split; [exact H | exact (quant2_rounds_half_up _ _ H)].
Qed.

(** Rounding half-up is not rounding half-even: 12.345 rounded half-even
    is 12.34, which is not 12.345 rounded half-up. *)
Example half_even_not_half_up :
  rescale (mkDecimal false 12345 (-3)) (-2) ROUND_HALF_EVEN
    = mkDecimal false 1234 (-2) /\
  ~ rounds_half_up (mkDecimal false 12345 (-3)) (mkDecimal false 1234 (-2)) /\
  rounds_half_up (mkDecimal false 12345 (-3)) (mkDecimal false 1235 (-2)).
Proof.
  split; [vm_compute; reflexivity|]. split.
  - intros (_ & _ & H). vm_compute in H. discriminate H.
  - repeat split.
Qed.

(** C9: whenever [berechne] returns, every monetary field is finalized by
    rounding its own unrounded value half-up to two decimals: the current
    tax from the product of the assessed value and the two factors, the
    threshold from the quotient by 1.4, the tax at the threshold from the
    product of the (rounded) threshold and the factors, the saving per year
    from the difference of the two (rounded) taxes, the total saving from
    the product of the (rounded) saving per year and the years, and the
    three custom fields, when a custom value is given, in the same way from
    the custom value.  Each field is what [quant2] returns for that
    unrounded value: it has the sign of the unrounded value, the exponent
    -2, at most 28 digits, and the nearest whole number of cents, a half
    going up in absolute value.  For an assessed value of zero the five
    non-custom fields are zero with exponent -2 (0.00, up to the sign of
    the zero). *)
Theorem results_two_places i r :
  berechne i = OK r ->
  (quantized (steuer_status_quo r) /\ two_places (steuer_status_quo r)) /\
  (quantized (schwelle_40_prozent r) /\ two_places (schwelle_40_prozent r)) /\
  (quantized (steuer_beim_schwellenwert r) /\
   two_places (steuer_beim_schwellenwert r)) /\
  (quantized (ersparnis_pro_jahr_schwelle r) /\
   two_places (ersparnis_pro_jahr_schwelle r)) /\
  (quantized (ersparnis_gesamt_schwelle r) /\
   two_places (ersparnis_gesamt_schwelle r)) /\
  (forall x,
     steuer_beim_custom r = Some x \/ ersparnis_pro_jahr_custom r = Some x \/
     ersparnis_gesamt_custom r = Some x ->
     quantized x /\ two_places x) /\
  (dint (grundsteuerwert i) = 0%N ->
   dint (steuer_status_quo r) = 0%N /\
   dint (schwelle_40_prozent r) = 0%N /\
   dint (steuer_beim_schwellenwert r) = 0%N /\
   dint (ersparnis_pro_jahr_schwelle r) = 0%N /\
   dint (ersparnis_gesamt_schwelle r) = 0%N) /\
  (exists mess heb,
     truediv (messzahl_permille i) Decimal_1000 = OK mess /\
     truediv (hebesatz_prozent i) Decimal_100 = OK heb /\
     finalized (t <- mul (grundsteuerwert i) mess ;; mul t heb)
               (steuer_status_quo r) /\
     finalized (truediv (grundsteuerwert i) Decimal_1_4)
               (schwelle_40_prozent r) /\
     finalized (t <- mul (schwelle_40_prozent r) mess ;; mul t heb)
               (steuer_beim_schwellenwert r) /\
     finalized (sub (steuer_status_quo r) (steuer_beim_schwellenwert r))
               (ersparnis_pro_jahr_schwelle r) /\
     finalized (mul (ersparnis_pro_jahr_schwelle r) (of_int (years i)))
               (ersparnis_gesamt_schwelle r) /\
     match custom_verkehrswert i with
     | None =>
         steuer_beim_custom r = None /\ ersparnis_pro_jahr_custom r = None /\
         ersparnis_gesamt_custom r = None
     | Some cv =>
         exists sc jc gc,
           steuer_beim_custom r = Some sc /\
           ersparnis_pro_jahr_custom r = Some jc /\
           ersparnis_gesamt_custom r = Some gc /\
           finalized (t <- mul cv mess ;; mul t heb) sc /\
           finalized (sub (steuer_status_quo r) sc) jc /\
           finalized (mul jc (of_int (years i))) gc
     end).
Proof.
  intros H.
  destruct (berechne_inv i r H)
    as (mess & heb & Hm & Hh & Hnow & Hv & Hsv & Hj & Hg & Hc).
  pose proof (steuer_quantized _ _ _ _ Hnow) as Qnow.
  pose proof (schwelle_quantized _ _ Hv) as Qv.
  pose proof (steuer_quantized _ _ _ _ Hsv) as Qsv.
  pose proof (ersparnis_jahr_quantized _ _ _ Hj) as Qj.
  pose proof (ersparnis_gesamt_quantized _ _ _ Hg) as Qg.
  repeat match goal with
         | |- (quantized _ /\ two_places _) /\ _ =>
             split; [split; auto using quantized_two_places|]
         end.
  split; [|split].
  - intros x Hx. enough (quantized x) by auto using quantized_two_places.
    destruct (custom_verkehrswert i) as [cv|].
    + destruct Hc as (sc & jc & gc & Hsz & H1 & H2 & H3).
      apply szenario_inv in Hsz. destruct Hsz as (Hsc & Hjc & Hgc).
      rewrite H1, H2, H3 in Hx.
      destruct Hx as [[= <-]|[[= <-]|[= <-]]].
      * exact (steuer_quantized _ _ _ _ Hsc).
      * exact (ersparnis_jahr_quantized _ _ _ Hjc).
      * exact (ersparnis_gesamt_quantized _ _ _ Hgc).
    + destruct Hc as (H1 & H2 & H3). rewrite H1, H2, H3 in Hx.
      destruct Hx as [Hx|[Hx|Hx]]; discriminate Hx.
  - intros Hz.
    assert (Hzg : is_zero (grundsteuerwert i) = true)
      by (unfold is_zero; rewrite Hz; reflexivity).
    pose proof (steuer_zero _ _ _ _ Hnow Hzg) as Z1.
    pose proof (schwelle_zero _ _ Hv Hzg) as Z2.
    assert (Hzv : is_zero (schwelle_40_prozent r) = true)
      by (unfold is_zero; rewrite Z2; reflexivity).
    pose proof (steuer_zero _ _ _ _ Hsv Hzv) as Z3.
    assert (Z4 : dint (ersparnis_pro_jahr_schwelle r) = 0%N).
    { apply cents_zero.
      rewrite (ersparnis_jahr_exact _ _ _ (quantized_two_places _ Qnow)
                 (quantized_two_places _ Qsv) Hj).
      apply cents_zero in Z1, Z3. lia. }
    repeat split; try assumption.
    apply cents_zero.
    rewrite (ersparnis_gesamt_exact _ _ _ (quantized_two_places _ Qj) Hg).
    apply cents_zero in Z4. lia.
  - exists mess, heb.
    split; [exact Hm|]. split; [exact Hh|].
    split; [exact (steuer_finalized _ _ _ _ Hnow)|].
    split; [exact (schwelle_finalized _ _ Hv)|].
    split; [exact (steuer_finalized _ _ _ _ Hsv)|].
    split; [exact (ersparnis_jahr_finalized _ _ _ Hj)|].
    split; [exact (ersparnis_gesamt_finalized _ _ _ Hg)|].
    destruct (custom_verkehrswert i) as [cv|]; [|exact Hc].
    destruct Hc as (sc & jc & gc & Hsz & H1 & H2 & H3).
    apply szenario_inv in Hsz. destruct Hsz as (Hsc & Hjc & Hgc).
    exists sc, jc, gc.
    split; [exact H1|]. split; [exact H2|]. split; [exact H3|].
    split; [exact (steuer_finalized _ _ _ _ Hsc)|].
    split; [exact (ersparnis_jahr_finalized _ _ _ Hjc)|].
    exact (ersparnis_gesamt_finalized _ _ _ Hgc).
Qed.

Lemma results_two_places_witness :
  berechne scenario_B = OK result_B /\
  two_places (steuer_status_quo result_B) /\
  two_places (schwelle_40_prozent result_B) /\
  finalized (truediv (grundsteuerwert scenario_B) Decimal_1_4)
            (schwelle_40_prozent result_B) /\
  finalized (sub (steuer_status_quo result_B)
                 (steuer_beim_schwellenwert result_B))
            (ersparnis_pro_jahr_schwelle result_B).
Proof.
  assert (H : berechne scenario_B = OK result_B) by (vm_compute; reflexivity).
  split; [exact H|].
  destruct (results_two_places scenario_B result_B H)
    as ((_ & T1) & (_ & T2) & _ & _ & _ & _ & _ & F).
  destruct F as (mess & heb & _ & _ & _ & Fv & _ & Fj & _).
  split; [exact T1|]. split; [exact T2|]. split; [exact Fv | exact Fj].
Defined.

(** ** Strings of digits *)

Section DigitStrings.

Lemma digit_char_cases k :
  (k < 10)%N -> In (digit_char k) (lit "0123456789").
Proof.
  intros H.
  assert (k = 0 \/ k = 1 \/ k = 2 \/ k = 3 \/ k = 4 \/ k = 5 \/ k = 6 \/
          k = 7 \/ k = 8 \/ k = 9)%N as Hk by lia.
  repeat (destruct Hk as [->|Hk]; [cbn; tauto|]). subst k. cbn. tauto.
Qed.

Lemma digit_val_char k : (k < 10)%N -> digit_val (digit_char k) = k.
Proof.
  intros H. unfold digit_val, digit_char.
  rewrite N_ascii_embedding by lia. lia.
Qed.

Lemma lsd_digits_small fuel : forall n d,
  In d (lsd_digits fuel n) -> (d < 10)%N.
Proof.
  induction fuel as [|f IH]; intros n d; cbn [lsd_digits].
  - intros [].
  - destruct (N.ltb_spec n 10) as [Hs|Hs].
    + intros [<-|[]]. assumption.
    + intros [<-|Hin]; [lia|]. exact (IH _ _ Hin).
Qed.

(** The digits, weighted by their powers of ten, add up to the number. *)
Lemma lsd_digits_value fuel : forall n,
  (n < 2 ^ N.of_nat fuel)%N ->
  fold_right (fun d acc => (10 * acc + d)%N) 0%N (lsd_digits fuel n) = n.
Proof.
  induction fuel as [|f IH]; intros n Hlt.
  - cbn in *. lia.
  - cbn [lsd_digits]. destruct (N.ltb_spec n 10) as [Hs|Hs].
    + cbn. lia.
    + cbn [fold_right]. rewrite IH.
      * lia.
      * rewrite Nat2N.inj_succ, N.pow_succ_r' in Hlt.
        apply N.Div0.div_lt_upper_bound.
        generalize dependent (2 ^ N.of_nat f)%N. intros. lia.
Qed.

Lemma digits_small n d : In d (digits n) -> (d < 10)%N.
Proof.
  unfold digits. rewrite <- in_rev. apply lsd_digits_small.
Qed.

Lemma log2_fuel n : (n < 2 ^ N.of_nat (S (N.to_nat (N.log2 n))))%N.
Proof.
  rewrite Nat2N.inj_succ, N2Nat.id.
  destruct (N.eq_dec n 0) as [->|Hn]; [reflexivity|].
  apply N.log2_spec. lia.
Qed.

Lemma int_of_str_app s t :
  int_of_str (s ++ t) =
  fold_left (fun acc c => (10 * acc + digit_val c)%N) t (int_of_str s).
Proof. unfold int_of_str. apply fold_left_app. Qed.

Lemma int_of_lsd l :
  (forall d, In d l -> (d < 10)%N) ->
  int_of_str (map digit_char (rev l))
  = fold_right (fun d acc => (10 * acc + d)%N) 0%N l.
Proof.
  induction l as [|d l IH]; intros Hl; [reflexivity|].
  cbn [rev fold_right]. rewrite map_app, int_of_str_app. cbn [map fold_left].
  rewrite IH by (intros d' Hd'; apply Hl; right; exact Hd').
  rewrite digit_val_char by (apply Hl; left; reflexivity).
  reflexivity.
Qed.

(** [int(str(n)) == n]. *)
Lemma int_of_str_of_N n : int_of_str (str_of_N n) = n.
Proof.
  unfold str_of_N, digits.
  rewrite int_of_lsd by apply lsd_digits_small.
  apply lsd_digits_value, log2_fuel.
Qed.

Lemma str_of_N_chars n c :
  In c (str_of_N n) -> In c (lit "0123456789").
Proof.
  unfold str_of_N. rewrite in_map_iff. intros (d & <- & Hd).
  apply digit_char_cases. exact (digits_small _ _ Hd).
Qed.

Lemma str_of_N_nonempty n : str_of_N n <> [].
Proof.
  unfold str_of_N. intros H. apply map_eq_nil in H.
  pose proof (ndigits_pos n) as Hp. unfold ndigits in Hp. rewrite H in Hp.
  cbn in Hp. lia.
Qed.

Lemma digit_is_digit c : In c (lit "0123456789") -> is_digit c = true.
Proof.
  cbn. intros H.
  repeat (destruct H as [<-|H]; [reflexivity|]). destruct H.
Qed.

Lemma digit_not_sep c (sep : ascii) :
  In c (lit "0123456789") ->
  In sep (lit ".,-+ ") -> Ascii.eqb c sep = false.
Proof.
  cbn. intros H Hs.
  repeat (destruct H as [<-|H];
          [repeat (destruct Hs as [<-|Hs]; [reflexivity|]); destruct Hs|]).
  destruct H.
Qed.

End DigitStrings.

(** ** Splitting, chunking and joining *)

Section Strings.

Lemma free_of_app sep s t :
  free_of sep s -> free_of sep t -> free_of sep (s ++ t).
Proof.
  intros Hs Ht c Hc. apply in_app_or in Hc. destruct Hc; auto.
Qed.

Lemma free_of_cons sep c s :
  Ascii.eqb c sep = false -> free_of sep s -> free_of sep (c :: s).
Proof. intros Hc Hs c' [<-|Hin]; auto. Qed.

Lemma free_of_nil sep : free_of sep [].
Proof. intros c []. Qed.

Lemma split_free sep s : free_of sep s -> split sep s = [s].
Proof.
  induction s as [|c s IH]; intros H; [reflexivity|].
  cbn [split]. rewrite (H c (or_introl eq_refl)).
  rewrite IH; [reflexivity|]. intros c' Hc'. apply H. right. exact Hc'.
Qed.

Lemma split_app sep w f :
  free_of sep w -> free_of sep f -> split sep (w ++ sep :: f) = [w; f].
Proof.
  intros Hw Hf. induction w as [|c w IH].
  - cbn [app split]. rewrite Ascii.eqb_refl, (split_free sep f Hf).
    reflexivity.
  - cbn [app split]. rewrite (Hw c (or_introl eq_refl)).
    rewrite IH; [reflexivity|]. intros c' Hc'. apply Hw. right. exact Hc'.
Qed.

Lemma concat_chunks_3 : forall l a b,
  concat (chunks l) = l /\
  concat (chunks (a :: l)) = a :: l /\
  concat (chunks (a :: b :: l)) = a :: b :: l.
Proof.
  induction l as [|c l IH]; intros a b.
  - repeat split.
  - destruct (IH c b) as (H0 & H1 & H2).
    split; [exact H1|]. split; [exact (proj2 (proj2 (IH a c)))|].
    cbn [chunks concat app]. rewrite H0. reflexivity.
Qed.

(** The chunks, put back together, are the string. *)
Lemma concat_chunks l : concat (chunks l) = l.
Proof. exact (proj1 (concat_chunks_3 l "0"%char "0"%char)). Qed.

Lemma remove_char_app c s t :
  remove_char c (s ++ t) = remove_char c s ++ remove_char c t.
Proof. apply filter_app. Qed.

Lemma remove_char_free c s : free_of c s -> remove_char c s = s.
Proof.
  unfold remove_char.
  induction s as [|a s IH]; intros H; [reflexivity|].
  cbn [filter]. rewrite (H a (or_introl eq_refl)). cbn [negb].
  rewrite IH; [reflexivity|]. intros c' Hc'. apply H. right. exact Hc'.
Qed.

Lemma remove_char_rev c s : remove_char c (rev s) = rev (remove_char c s).
Proof.
  induction s as [|a s IH]; [reflexivity|].
  cbn [rev]. rewrite remove_char_app, IH. unfold remove_char. cbn [filter].
  destruct (Ascii.eqb a c); cbn [negb rev]; [apply app_nil_r|reflexivity].
Qed.

(** Removing the separator from a joined string leaves the parts. *)
Lemma remove_char_join c parts :
  remove_char c (join [c] parts) = remove_char c (concat parts).
Proof.
  induction parts as [|p ps IH]; [reflexivity|].
  cbn [join concat]. destruct ps as [|q qs].
  - cbn [concat]. rewrite app_nil_r. reflexivity.
  - rewrite !remove_char_app, IH. unfold remove_char at 2. cbn [filter].
    rewrite Ascii.eqb_refl. reflexivity.
Qed.

Lemma replace_char_free c c' s : free_of c s -> replace_char c c' s = s.
Proof.
  unfold replace_char.
  induction s as [|a s IH]; intros H; [reflexivity|].
  cbn [map]. rewrite (H a (or_introl eq_refl)).
  rewrite IH; [reflexivity|]. intros x Hx. apply H. right. exact Hx.
Qed.

Lemma replace_char_app c c' s t :
  replace_char c c' (s ++ t) = replace_char c c' s ++ replace_char c c' t.
Proof. apply map_app. Qed.

Lemma strip_prefix_app p r : strip_prefix p (p ++ r) = Some r.
Proof.
  induction p as [|a p IH]; [destruct r; reflexivity|].
  cbn. rewrite Ascii.eqb_refl. exact IH.
Qed.

Lemma strip_suffix_app p r : strip_suffix p (r ++ p) = Some r.
Proof.
  unfold strip_suffix. rewrite rev_app_distr, strip_prefix_app. cbn.
  rewrite rev_involutive. reflexivity.
Qed.

(** The grouping of [eur] only inserts separators. *)
Lemma grouping_removed w :
  free_of "."%char w ->
  remove_char "."%char (rev (join (lit ".") (chunks (rev w)))) = w.
Proof.
  intros Hw. rewrite remove_char_rev.
  change (lit ".") with ["."%char]. rewrite remove_char_join, concat_chunks.
  rewrite remove_char_rev, rev_involutive. apply remove_char_free, Hw.
Qed.

End Strings.

(** ** [eur] on a rounded value *)

Section Eur.

Lemma rescale_same x r : dexp x = -2 -> rescale x (-2) r = x.
Proof.
  intros He. unfold rescale. destruct (is_zero x) eqn:Hz.
  - apply is_zero_true in Hz. destruct x as [s c e]; cbn in *. congruence.
  - rewrite He. cbn. destruct x as [s c e]; cbn in *. subst e. f_equal. lia.
Qed.

(** [quant2] leaves a rounded value alone. *)
Lemma quant2_id x : two_places x -> quant2 x = OK x.
Proof.
  intros [He Hnd]. destruct (is_zero x) eqn:Hz.
  - rewrite (quant2_zero x Hz). apply is_zero_true in Hz.
    destruct x as [s c e]; cbn in *. congruence.
  - rewrite <- (rescale_same x ROUND_HALF_UP He) at 2.
    apply quant2_ok; [assumption| |].
    + unfold adjusted, prec in *. lia.
    + rewrite (rescale_same x ROUND_HALF_UP He). assumption.
Qed.

Lemma sign_str_free sep x :
  In sep (lit ".,") -> free_of sep (sign_str x).
Proof.
  intros Hs c Hc. unfold sign_str in Hc. destruct (dsign x); [|destruct Hc].
  destruct Hc as [<-|[]]. cbn in Hs.
  destruct Hs as [<-|[<-|[]]]; reflexivity.
Qed.

Lemma str_of_N_free sep n :
  In sep (lit ".,-+ ") -> free_of sep (str_of_N n).
Proof.
  intros Hs c Hc. apply digit_not_sep; [|assumption].
  exact (str_of_N_chars n c Hc).
Qed.

Lemma cent_digits_chars x c :
  In c (cent_digits x) -> In c (lit "0123456789").
Proof.
  unfold cent_digits. intros [<-|[<-|[]]]; apply digit_char_cases; lia.
Qed.

Lemma cent_digits_free sep x :
  In sep (lit ".,-+ ") -> free_of sep (cent_digits x).
Proof.
  intros Hs c Hc. apply digit_not_sep; [|assumption].
  exact (cent_digits_chars x c Hc).
Qed.

Lemma whole_free sep x :
  In sep (lit ".,") -> free_of sep (sign_str x ++ str_of_N (dint x / 100)).
Proof.
  intros Hs. apply free_of_app; [apply sign_str_free; assumption|].
  apply str_of_N_free. cbn in *. tauto.
Qed.

(** What [eur] returns on a rounded value: the sign and the digits of the
    whole part, grouped, a comma, the two digits of the cents, a space and
    the euro sign. *)
Lemma eur_two_places x :
  two_places x ->
  eur x =
    OK (rev (join (lit ".")
               (chunks (rev (sign_str x ++ str_of_N (dint x / 100)))))
        ++ lit "," ++ cent_digits x ++ lit " " ++ euro_sign).
Proof.
  intros Hx. unfold eur. rewrite (quant2_id x Hx). cbn [bind].
  unfold format_2f. rewrite (rescale_same x ROUND_HALF_EVEN (proj1 Hx)).
  fold (cent_digits x).
  change (if dsign x then lit "-" else []) with (sign_str x).
  change (lit ".") with ["."%char] at 1.
  rewrite (app_assoc (sign_str x)). cbn [app].
  rewrite split_app.
  - reflexivity.
  - apply whole_free. cbn. tauto.
  - apply cent_digits_free. cbn. tauto.
Qed.

Lemma forallb_digits s :
  (forall c, In c s -> In c (lit "0123456789")) -> forallb is_digit s = true.
Proof.
  intros H. apply forallb_forall. intros c Hc. apply digit_is_digit, H, Hc.
Qed.

(** [Decimal(...)] reads the plain numeral of a rounded value back. *)
Lemma Decimal_of_str_numeral x :
  dexp x = -2 ->
  Decimal_of_str
    ((sign_str x ++ str_of_N (dint x / 100)) ++ lit "." ++ cent_digits x)
  = Some x.
Proof.
  intros He.
  set (ds := str_of_N (dint x / 100)).
  assert (Hsplit : split "."%char (ds ++ "."%char :: cent_digits x)
                   = [ds; cent_digits x]).
  { apply split_app; [apply str_of_N_free|apply cent_digits_free];
      cbn; tauto. }
  assert (Hdig : forallb is_digit (ds ++ cent_digits x) = true).
  { apply forallb_digits. intros c Hc. apply in_app_or in Hc.
    destruct Hc as [Hc|Hc];
      [exact (str_of_N_chars _ c Hc) | exact (cent_digits_chars x c Hc)]. }
  assert (Hlen : negb (Nat.eqb (length (ds ++ cent_digits x)) 0) = true).
  { rewrite length_app. cbn [cent_digits length].
    destruct (length ds + 2)%nat eqn:E; [lia|reflexivity]. }
  assert (Hint : int_of_str (ds ++ cent_digits x) = dint x).
  { rewrite int_of_str_app. unfold ds. rewrite int_of_str_of_N.
    unfold cent_digits. cbn [fold_left].
    rewrite !digit_val_char by lia. lia. }
  assert (Hbody : Decimal_of_str (ds ++ lit "." ++ cent_digits x)
                  = Some (mkDecimal false (dint x) (-2))
                  /\ Decimal_of_str ("-"%char :: ds ++ lit "." ++ cent_digits x)
                  = Some (mkDecimal true (dint x) (-2))).
  { split.
    - unfold Decimal_of_str.
      destruct ds as [|c0 ds'] eqn:Eds;
        [exfalso; exact (str_of_N_nonempty _ Eds)|].
      assert (Hc0 : In c0 (lit "0123456789")).
      { apply (str_of_N_chars (dint x / 100)). fold ds. rewrite Eds.
        left. reflexivity. }
      cbn [app].
      rewrite (digit_not_sep c0 "-"%char Hc0) by (cbn; tauto).
      rewrite (digit_not_sep c0 "+"%char Hc0) by (cbn; tauto).
      change (c0 :: ds' ++ lit "." ++ cent_digits x)
        with ((c0 :: ds') ++ "."%char :: cent_digits x).
      rewrite Hsplit, Hdig, Hlen, Hint. reflexivity.
    - unfold Decimal_of_str. rewrite Ascii.eqb_refl.
      change (ds ++ lit "." ++ cent_digits x)
        with (ds ++ "."%char :: cent_digits x).
      rewrite Hsplit, Hdig, Hlen, Hint. reflexivity. }
  destruct x as [s c e]. cbn in He. subst e.
  rewrite <- app_assoc. unfold sign_str. cbn [dsign dint] in *.
  destruct s; [exact (proj2 Hbody) | exact (proj1 Hbody)].
Qed.

End Eur.

(** ** C6: formatting and reading back *)

(** C6: for every value rounded to two decimals, [eur] returns a string,
    and dropping the currency suffix, stripping the thousands separators,
    turning the comma into a point and parsing the result gives the value
    back, sign, coefficient and exponent. *)
Theorem eur_round_trip x :
  two_places x -> exists s, eur x = OK s /\ parse_eur s = Some x.
Proof.
  intros Hx. eexists. split; [apply (eur_two_places x Hx)|].
  unfold parse_eur.
  set (w := sign_str x ++ str_of_N (dint x / 100)).
  replace (rev (join (lit ".") (chunks (rev w)))
           ++ lit "," ++ cent_digits x ++ lit " " ++ euro_sign)
    with ((rev (join (lit ".") (chunks (rev w))) ++ lit "," ++ cent_digits x)
          ++ (lit " " ++ euro_sign))
    by (rewrite <- !app_assoc; reflexivity).
  rewrite strip_suffix_app.
  rewrite !remove_char_app, grouping_removed
    by (apply whole_free; cbn; tauto).
  rewrite (remove_char_free "."%char (lit ",")) by (intros c [<-|[]]; reflexivity).
  rewrite (remove_char_free "."%char (cent_digits x))
    by (apply cent_digits_free; cbn; tauto).
  rewrite !replace_char_app.
  rewrite (replace_char_free ","%char "."%char w)
    by (apply whole_free; cbn; tauto).
  rewrite (replace_char_free ","%char "."%char (cent_digits x))
    by (apply cent_digits_free; cbn; tauto).
  change (replace_char ","%char "."%char (lit ",")) with (lit ".").
  apply Decimal_of_str_numeral, Hx.
Qed.

Lemma eur_round_trip_witness :
  exists s, eur (mkDecimal false 103160000 (-2)) = OK s /\
            parse_eur s = Some (mkDecimal false 103160000 (-2)).
Proof.
  apply (eur_round_trip (mkDecimal false 103160000 (-2))).
  split; [reflexivity | vm_compute; discriminate].
Defined.

(** ** Orders of magnitude *)

Section Magnitude.

Lemma ndigits_mono a b : (a <= b)%N -> ndigits a <= ndigits b.
Proof.
  intros H. pose proof (ndigits_pos b) as Hb.
  apply ndigits_le; [assumption|].
  pose proof (ndigits_upper b). lia.
Qed.


Lemma ndigits_mul_pow10 c j :
  (0 < c)%N -> 0 <= j -> ndigits (c * pow10 j) = ndigits c + j.
Proof.
  intros Hc Hj. pose proof (ndigits_pos c) as Hp.
  destruct (ndigits_spec c Hc) as [Hlo Hhi].
  pose proof (pow10_pos j) as Hpj.
  apply ndigits_unique; [lia|].
  replace (ndigits c + j - 1) with ((ndigits c - 1) + j) by lia.
  rewrite !pow10_add by lia. split; nia.
Qed.


Lemma mag_zero x A : is_zero x = true -> mag x A.
Proof. intros H. left. exact H. Qed.


(** Dropping [k] of the digits of [c]. *)
Lemma drop_digits_upper c k :
  0 <= k -> k <= ndigits c -> (c / pow10 k < pow10 (ndigits c - k))%N.
Proof.
  intros Hk Hle. apply N.Div0.div_lt_upper_bound.
  rewrite <- pow10_add by lia.
  replace (k + (ndigits c - k)) with (ndigits c) by lia.
  apply ndigits_upper.
Qed.





(** The zero-stripping loop keeps the number, and stops at the ideal
    exponent or at a coefficient that does not end in zero. *)
Lemma strip_zeros_spec fuel : forall c e,
  let c' := fst (strip_zeros fuel c e) in
  let e' := snd (strip_zeros fuel c e) in
  (c' * pow10 (e' - e) = c)%N /\ e <= e' <= e + Z.of_nat fuel /\
  (e' = e + Z.of_nat fuel \/ (c' mod 10 <> 0)%N).
Proof.
  induction fuel as [|f IH]; intros c e; cbn [strip_zeros].
  - cbn [fst snd]. rewrite Z.sub_diag. change (pow10 0) with 1%N.
    repeat split; lia.
  - destruct (N.eqb_spec (c mod 10) 0) as [Hm|Hm].
    + specialize (IH (c / 10)%N (e + 1)). cbn zeta in IH.
      destruct IH as (H1 & H2 & H3).
      set (c' := fst (strip_zeros f (c / 10) (e + 1))) in *.
      set (e' := snd (strip_zeros f (c / 10) (e + 1))) in *.
      cbn zeta. split; [|split; [lia|]].
      * replace (e' - e) with ((e' - (e + 1)) + 1) by lia.
        rewrite pow10_succ by lia.
        generalize dependent (pow10 (e' - (e + 1))). intros. nia.
      * destruct H3 as [H3|H3]; [left; lia|right; exact H3].
    + cbn [fst snd]. rewrite Z.sub_diag. change (pow10 0) with 1%N.
      split; [lia|]. split; [lia|]. right. exact Hm.
Qed.









End Magnitude.

(** ** What [berechne] can raise *)

Section Raises.











End Raises.

(** ** Totality on inputs of bounded magnitude *)

Section Total.


End Total.

(** ** The threshold value *)

Section Threshold.

(** The arithmetic behind the double rounding of [gsw / 1.4]: [num / 14] is
    computed to 29 or 30 digits and rounded twice, first by the context and
    then to cents; the quotient of [10 * n] by 14 is never within 1/14 of a
    half cent, which is far more than the first rounding moves it. *)
Lemma threshold_arith (n num coeff c1 tk Y0 Pm : N) :
  (num = 10 * n * Pm ->
   14 * coeff <= num -> num < 14 * coeff + 14 ->
   coeff <= c1 -> c1 <= coeff + 1 ->
   2 * c1 <= 2 * Y0 + tk -> 2 * Y0 <= 2 * c1 + tk ->
   100 * tk <= Pm -> 10 <= tk ->
   let T := (10 * n + 7) / 14 in
   2 * T * Pm <= 2 * Y0 + Pm /\ 2 * Y0 + Pm < 2 * (T + 1) * Pm)%N.
Proof.
  intros Hnum Hc1 Hc2 Hl Hu Hn1 Hn2 HPm Htk T.
  assert (HT1 : (14 * T <= 10 * n + 6)%N) by (unfold T; lia).
  assert (HT2 : (10 * n + 8 <= 14 * T + 14)%N) by (unfold T; lia).
  assert (HB1 : (14 * (T * Pm) <= 10 * (n * Pm) + 6 * Pm)%N) by nia.
  assert (HB2 : (10 * (n * Pm) + 8 * Pm <= 14 * (T * Pm) + 14 * Pm)%N) by nia.
  assert (HA : (num = 10 * (n * Pm))%N) by lia.
  replace (2 * T * Pm)%N with (2 * (T * Pm))%N by lia.
  replace (2 * (T + 1) * Pm)%N with (2 * (T * Pm) + 2 * Pm)%N by lia.
  generalize dependent (T * Pm)%N. generalize dependent (n * Pm)%N.
  intros A HA B HB1 HB2. lia.
Qed.

(** [quant2] on a number with more than two decimals: the nearest cent,
    half-up. *)
Lemma quant2_rounds_to s c e T :
  (0 < c)%N -> e < -2 -> e + ndigits c - 1 <= 25 ->
  let p := pow10 (-2 - e) in
  (2 * T * p <= 2 * c + p)%N -> (2 * c + p < 2 * (T + 1) * p)%N ->
  ndigits T <= prec ->
  quant2 (mkDecimal s c e) = OK (mkDecimal s T (-2)).
Proof.
  intros Hc He Hadj p Hlo Hhi HT.
  assert (Hz : is_zero (mkDecimal s c e) = false)
    by (apply N.eqb_neq; cbn; lia).
  assert (Hr : rescale (mkDecimal s c e) (-2) ROUND_HALF_UP
               = mkDecimal s T (-2)).
  { unfold rescale. rewrite Hz. cbn [dint dexp dsign].
    destruct (Z.leb_spec (-2) e); [lia|].
    rewrite (round_half_up_unique c (-2 - e) T Hlo Hhi). reflexivity. }
  rewrite <- Hr. apply quant2_ok; [assumption|exact Hadj|].
  rewrite Hr. exact HT.
Qed.

(** [quant2] on a number with at most two decimals only pads it. *)
Lemma quant2_pads s c e :
  (0 < c)%N -> -2 <= e -> ndigits c + e + 2 <= prec ->
  quant2 (mkDecimal s c e) = OK (mkDecimal s (c * pow10 (e + 2)) (-2)).
Proof.
  intros Hc He Hnd.
  assert (Hz : is_zero (mkDecimal s c e) = false)
    by (apply N.eqb_neq; cbn; lia).
  assert (Hr : rescale (mkDecimal s c e) (-2) ROUND_HALF_UP
               = mkDecimal s (c * pow10 (e + 2)) (-2)).
  { unfold rescale. rewrite Hz. cbn [dint dexp dsign].
    destruct (Z.leb_spec (-2) e); [|lia].
    replace (e - -2) with (e + 2) by lia. reflexivity. }
  rewrite <- Hr. apply quant2_ok; [assumption| |].
  - unfold adjusted, prec in *. cbn [dint dexp]. lia.
  - rewrite Hr. cbn [dint]. rewrite ndigits_mul_pow10 by lia. lia.
Qed.

Lemma threshold_inexact s c1 exp0 n num coeff :
  (pow10 28 <= c1)%N -> (c1 < pow10 30)%N ->
  -60 <= exp0 -> exp0 <= -6 ->
  (num = 10 * n * pow10 (-2 - exp0))%N ->
  (14 * coeff <= num)%N -> (num < 14 * coeff + 14)%N ->
  (coeff <= c1)%N -> (c1 <= coeff + 1)%N ->
  (n < pow10 26)%N ->
  (t <- fix_ (mkDecimal s c1 exp0) ;; quant2 t)
  = OK (mkDecimal s ((10 * n + 7) / 14) (-2)).
Proof.
  intros Hlo Hhi Hexp1 Hexp2 Hnum Hc1 Hc2 Hl Hu Hn.
  set (T := ((10 * n + 7) / 14)%N).
  assert (HT : ndigits T <= prec).
  { apply ndigits_le; [unfold prec; lia|].
    change (pow10 prec) with (10 ^ 28)%N. change (pow10 26) with (10 ^ 26)%N in Hn.
    unfold T. lia. }
  set (x1 := mkDecimal s c1 exp0).
  assert (Hz : is_zero x1 = false).
  { apply N.eqb_neq. cbn. change (pow10 28) with (10 ^ 28)%N in Hlo. lia. }
  assert (Hnd : 28 < ndigits c1 <= 30).
  { split; [apply ndigits_gt; assumption|apply ndigits_le; [lia|assumption]]. }
  destruct (fix_round x1 Hz) as [[Rlo Rhi] Heq].
  { cbn [x1 dint]. unfold prec. lia. }
  { cbn [x1 dint dexp]. unfold Etiny, Emin, prec. lia. }
  cbn [x1 dint dexp dsign] in Rlo, Rhi, Heq. rewrite Heq. clear Heq.
  set (k := ndigits c1 - prec) in *.
  assert (Hk : 1 <= k <= 2) by (unfold k, prec; lia).
  set (R := round_shift ROUND_HALF_EVEN c1 k) in *.
  destruct (round_shift_near ROUND_HALF_EVEN c1 k) as [Hn1 Hn2].
  cbn zeta in Hn1, Hn2. fold R in Hn1, Hn2.
  set (tk := pow10 k) in *.
  assert (Htk : (10 <= tk)%N).
  { pose proof (pow10_le 1 k ltac:(lia)) as H. exact H. }
  set (p := pow10 (-2 - (exp0 + k))).
  assert (Hp : (0 < p)%N) by apply pow10_pos.
  assert (HPm : pow10 (-2 - exp0) = (p * tk)%N).
  { unfold p, tk. rewrite <- pow10_add by lia. f_equal. lia. }
  assert (Hp100 : (100 <= p)%N).
  { pose proof (pow10_le 2 (-2 - (exp0 + k)) ltac:(lia)) as H. exact H. }
  destruct (threshold_arith n num coeff c1 tk (R * tk) (pow10 (-2 - exp0)))
    as [A1 A2]; try assumption; try lia.
  { rewrite HPm. nia. }
  fold T in A1, A2. rewrite HPm in A1, A2.
  destruct (Z.gtb_spec (exp0 + k) Etop) as [Hov|_];
    [unfold Etop, Emax, prec in Hov; lia|].
  destruct (N.ltb_spec R (pow10 28)) as [HR|HR].
  - cbn [bind]. apply quant2_rounds_to.
    + change (pow10 27) with (10 ^ 27)%N in Rlo. lia.
    + lia.
    + assert (ndigits R <= 28) by (apply ndigits_le; [lia|assumption]). lia.
    + fold p. nia.
    + fold p. nia.
    + exact HT.
  - destruct (Z.gtb_spec (exp0 + k + 1) Etop) as [Hov|_];
      [unfold Etop, Emax, prec in Hov; lia|].
    cbn [bind].
    assert (HR28 : R = pow10 28) by lia.
    assert (E28 : pow10 28 = (10 * pow10 27)%N) by (vm_compute; reflexivity).
    set (p' := pow10 (-2 - (exp0 + k + 1))).
    assert (Hp' : p = (10 * p')%N).
    { unfold p, p'. rewrite <- pow10_succ by lia. f_equal. lia. }
    apply quant2_rounds_to.
    + reflexivity.
    + lia.
    + change (ndigits (pow10 27)) with 28. lia.
    + fold p'. rewrite HR28, Hp', E28 in A1. nia.
    + fold p'. rewrite HR28, Hp', E28 in A2. nia.
    + exact HT.
Qed.


Lemma threshold_exact s c e shift :
  (0 < c)%N -> -2 <= e -> 2 <= shift -> ndigits c + e <= 24 ->
  ((c * pow10 shift) mod 14 = 0)%N ->
  (let '(coeff, exp) :=
     strip_zeros (Z.to_nat shift) (c * pow10 shift / 14) (e + 1 - shift) in
   t <- fix_ (mkDecimal s coeff exp) ;; quant2 t)
  = OK (mkDecimal s ((10 * (c * pow10 (e + 2)) + 7) / 14) (-2)).
Proof.
  intros Hc He Hshift HLe Hmod.
  pose proof (strip_zeros_spec (Z.to_nat shift) (c * pow10 shift / 14)
                (e + 1 - shift)) as Hs.
  cbn zeta in Hs. destruct Hs as (H1 & H2 & H3).
  destruct (strip_zeros _ _ _) as [c' e']. cbn [fst snd] in *.
  set (exp0 := e + 1 - shift) in *.
  assert (H14 : (14 * (c' * pow10 (e' - exp0)) = c * pow10 shift)%N).
  { rewrite H1. lia. }
  assert (Hsplit : pow10 shift = (pow10 (e' - exp0) * pow10 (e + 1 - e'))%N).
  { rewrite <- pow10_add by lia. f_equal. unfold exp0. lia. }
  pose proof (pow10_pos (e' - exp0)) as Hq.
  assert (H14' : (14 * c' = c * pow10 (e + 1 - e'))%N).
  { rewrite Hsplit in H14.
    apply (N.mul_cancel_r _ _ (pow10 (e' - exp0))); [lia|].
    lia. }
  assert (Hee : e <= e').
  { destruct (Z_le_gt_dec e e') as [|Hgt]; [assumption|exfalso].
    destruct H3 as [H3|H3]; [unfold exp0 in *; lia|].
    replace (e + 1 - e') with ((e + 1 - e' - 2) + 2) in H14' by lia.
    rewrite pow10_add in H14' by lia. change (pow10 2) with 100%N in H14'.
    generalize dependent (pow10 (e + 1 - e' - 2)). intros. lia. }
  assert (He1 : e' <= e + 1) by (unfold exp0 in *; lia).
  pose proof (pow10_pos (e + 1 - e')) as Hj.
  pose proof (pow10_le (e + 1 - e') 1 ltac:(lia)) as Hj10.
  change (pow10 1) with 10%N in Hj10.
  assert (Hc' : (0 < c')%N) by nia.
  assert (Hle : (c' <= c)%N) by nia.
  pose proof (ndigits_mono c' c Hle) as Hnd.
  pose proof (ndigits_pos c') as Hnd1.
  rewrite fix_id; cbn [dint dexp];
    [|unfold prec; lia|unfold Etiny, Emin, prec; lia
     |unfold adjusted, Emax; cbn [dint dexp]; lia|unfold Emax; lia].
  cbn [bind]. rewrite quant2_pads; [|assumption|lia|unfold prec; lia].
  f_equal. f_equal.
  assert (E : (14 * (c' * pow10 (e' + 2)) = 10 * (c * pow10 (e + 2)))%N).
  { assert (Ha : (pow10 (e + 1 - e') * pow10 (e' + 2)
                  = 10 * pow10 (e + 2))%N).
    { rewrite <- pow10_add, <- pow10_succ by lia. f_equal. lia. }
    replace (14 * (c' * pow10 (e' + 2)))%N
      with (14 * c' * pow10 (e' + 2))%N by lia.
    rewrite H14', <- N.mul_assoc, Ha. lia. }
  generalize dependent (c' * pow10 (e' + 2))%N.
  generalize dependent (c * pow10 (e + 2))%N. intros. lia.
Qed.


(** [quant2(gsw / Decimal("1.4"))] is the exact quotient rounded half-up to
    cents, for an amount of at most two decimals below [10^24]. *)
Lemma schwelle_exact_rounding g :
  -2 <= dexp g -> (dint g * pow10 (dexp g + 2) < pow10 26)%N ->
  schwelle g =
    OK (mkDecimal (dsign g)
          ((10 * (dint g * pow10 (dexp g + 2)) + 7) / 14) (-2)).
Proof.
  intros He Hn. destruct g as [s c e]. cbn [dint dexp dsign] in *.
  destruct (N.eq_dec c 0) as [Hc|Hc].
  { subst c. unfold schwelle, truediv.
    change (is_zero Decimal_1_4) with false.
    change (is_zero (mkDecimal s 0 e)) with true. cbv iota.
    unfold fix_, is_zero. cbn [dint dsign dexp N.eqb bind].
    rewrite quant2_zero by reflexivity. cbn [dsign].
    rewrite xorb_false_r. reflexivity. }
  assert (Hcpos : (0 < c)%N) by lia.
  pose proof (ndigits_pos c) as HL.
  destruct (ndigits_spec c Hcpos) as [Hclo Hchi].
  pose proof (pow10_pos (e + 2)) as Hp2.
  assert (HLe : ndigits c + e <= 24).
  { assert (pow10 (ndigits c - 1 + (e + 2)) < pow10 26)%N as H.
    { rewrite pow10_add by lia. nia. }
    apply pow10_lt_inv in H. lia. }
  unfold schwelle, truediv.
  change (is_zero Decimal_1_4) with false.
  replace (is_zero (mkDecimal s c e)) with false
    by (symmetry; apply N.eqb_neq; exact Hc).
  cbv iota. unfold Decimal_1_4. cbn [dint dexp dsign].
  change (ndigits 14) with 2. rewrite xorb_false_r.
  set (shift := 2 - ndigits c + prec + 1).
  assert (Hshift : 5 <= shift) by (unfold shift, prec; lia).
  destruct (Z.leb_spec 0 shift) as [_|]; [|lia].
  replace (e - -1 - shift) with (e + 1 - shift) by lia.
  replace (e - -1 - (e + 1 - shift)) with shift by lia.
  set (num := (c * pow10 shift)%N).
  destruct (N.eqb_spec (num mod 14) 0) as [Hr|Hr]; cbn [negb].
  - pose proof (threshold_exact s c e shift Hcpos He ltac:(lia) HLe Hr) as H.
    fold num in H.
    destruct (strip_zeros (Z.to_nat shift) (num / 14) (e + 1 - shift))
      as [c' e'].
    exact H.
  - assert (Hnum : (pow10 30 <= num /\ num < pow10 31)%N).
    { assert (E30 : (pow10 30 = pow10 (ndigits c - 1) * pow10 shift)%N).
      { rewrite <- pow10_add by lia. f_equal. unfold shift, prec. lia. }
      assert (E31 : (pow10 31 = pow10 (ndigits c) * pow10 shift)%N).
      { rewrite <- pow10_add by lia. f_equal. unfold shift, prec. lia. }
      rewrite E30, E31. unfold num. pose proof (pow10_pos shift). nia. }
    change (pow10 30) with (10 ^ 30)%N in Hnum.
    change (pow10 31) with (10 ^ 31)%N in Hnum.
    apply (threshold_inexact s _ (e + 1 - shift) (c * pow10 (e + 2)) num
             (num / 14)).
    + change (pow10 28) with (10 ^ 28)%N.
      destruct (N.eqb_spec ((num / 14) mod 5) 0); lia.
    + change (pow10 30) with (10 ^ 30)%N.
      destruct (N.eqb_spec ((num / 14) mod 5) 0); lia.
    + unfold shift, prec. lia.
    + unfold shift, prec. lia.
    + unfold num.
      replace (10 * (c * pow10 (e + 2)) * pow10 (-2 - (e + 1 - shift)))%N
        with (c * (pow10 1 * pow10 (e + 2) * pow10 (-2 - (e + 1 - shift))))%N
        by (change (pow10 1) with 10%N; lia).
      rewrite <- !pow10_add by (unfold shift, prec; lia).
      do 2 f_equal. lia.
    + lia.
    + lia.
    + destruct (N.eqb_spec ((num / 14) mod 5) 0); lia.
    + destruct (N.eqb_spec ((num / 14) mod 5) 0); lia.
    + exact Hn.
Qed.

End Threshold.

(** ** C3: the threshold value *)

(** Counterexample to C3 as stated: for the assessed value 0.007 the
    threshold value is 0.01, which is above the assessed value. *)
Lemma threshold_above_assessed_value :
  exists r, berechne scenario_small = OK r /\
            schwelle_40_prozent r = mkDecimal false 1 (-2) /\
            ~ Dle (schwelle_40_prozent r) (grundsteuerwert scenario_small).
Proof.
  eexists. split; [vm_compute; reflexivity|]. split; [reflexivity|].
  unfold Dle. cbn. lia.
Qed.

(** C3 (amended): for an assessed value with at most two decimals and below
    [10^24], the threshold computation [quant2(gsw / Decimal("1.4"))]
    returns the exact quotient of the value by 1.4 rounded half-up to cents
    (in cents: [10 n / 14] rounded to the nearest integer, halves up); this
    is the threshold value of every result [berechne] returns; and for a
    non-negative assessed value it is at most the assessed value. *)
Theorem threshold_value g :
  -2 <= dexp g -> (to_cents g < pow10 26)%N ->
  let t := mkDecimal (dsign g) (div_half_up (10 * to_cents g) 14) (-2) in
  schwelle g = OK t /\
  (forall i r, grundsteuerwert i = g -> berechne i = OK r ->
               schwelle_40_prozent r = t) /\
  (dsign g = false -> Dle t g).
Proof.
  intros He Hn t.
  assert (Ht : schwelle g = OK t).
  { unfold t, div_half_up, to_cents.
    rewrite (schwelle_exact_rounding g He Hn). do 2 f_equal.
    generalize (dint g * pow10 (dexp g + 2))%N. intros n. lia. }
  split; [exact Ht|]. split.
  - intros i r Hg Hr.
    destruct (berechne_inv i r Hr) as (_ & _ & _ & _ & _ & Hv & _).
    rewrite Hg, Ht in Hv. injection Hv as <-. reflexivity.
  - intros Hs. unfold Dle, t, cents. cbn [dsign dint dexp]. rewrite Hs.
    rewrite Z.min_l by lia. rewrite Z.sub_diag. change (pow10 0) with 1%N.
    replace (dexp g - -2) with (dexp g + 2) by lia.
    rewrite <- (N2Z.inj_mul (dint g)). unfold div_half_up, to_cents.
    generalize (dint g * pow10 (dexp g + 2))%N. intros n. lia.
Qed.

Lemma threshold_value_witness :
  schwelle (mkDecimal false 1031600 0)
  = OK (mkDecimal false 73685714 (-2)) /\
  Dle (mkDecimal false 73685714 (-2)) (mkDecimal false 1031600 0).
Proof.
  destruct (threshold_value (mkDecimal false 1031600 0)) as (H1 & _ & H3);
    [cbn; lia | vm_compute; reflexivity |].
  split; [exact H1 | exact (H3 eq_refl)].
Defined.

(** ** C10: when [berechne] returns *)




(** ** C2: the format of [eur] *)

(** C2 (the code fails it): with the custom value 1400000 in scenario A the
    custom saving per year is -536.76, and [eur] formats it with a
    thousands separator between the sign and the three digits. *)
Theorem eur_negative_three_digits :
  exists r x,
    berechne scenario_high_custom = OK r /\
    ersparnis_pro_jahr_custom r = Some x /\
    x = mkDecimal true 53676 (-2) /\
    eur x = OK (lit "-.536,76 €").
Proof.
  eexists. eexists. split; [vm_compute; reflexivity|].
  split; [reflexivity|]. split; [reflexivity|]. vm_compute. reflexivity.
Qed.

(** Where the sign does not fill a group of its own, the format is the
    expected one. *)
Example eur_examples :
  eur (mkDecimal false 103160000 (-2)) = OK (lit "1.031.600,00 €") /\
  eur (mkDecimal false 99999 (-2)) = OK (lit "999,99 €") /\
  eur (mkDecimal false 5 (-2)) = OK (lit "0,05 €") /\
  eur (mkDecimal true 141092 (-2)) = OK (lit "-1.410,92 €") /\
  eur (mkDecimal true 10000 (-2)) = OK (lit "-.100,00 €").
Proof. repeat split; vm_compute; reflexivity. Qed.

(** * Further properties of the code *)

(** ** [quant2] *)

Section Quant2More.

(** A non-zero number whose rounding to cents fits 28 digits is below
    [10^26]. *)
Lemma rescale_digits_adjusted x :
  is_zero x = false ->
  ndigits (dint (rescale x (-2) ROUND_HALF_UP)) <= prec ->
  adjusted x <= 25.
Proof.
  intros Hz Hnd. unfold rescale in Hnd. rewrite Hz in Hnd.
  assert (Hc : (0 < dint x)%N) by (apply is_zero_false in Hz; lia).
  pose proof (ndigits_pos (dint x)) as Hp.
  unfold adjusted, prec in *.
  destruct (Z.leb_spec (-2) (dexp x)) as [Hle|Hgt]; cbn [dint] in Hnd.
  - rewrite ndigits_mul_pow10 in Hnd by lia. lia.
  - set (k := -2 - dexp x) in *.
    destruct (Z_le_gt_dec (ndigits (dint x)) k) as [Hs|Hb]; [unfold k in *; lia|].
    destruct (ndigits_spec (dint x) Hc) as [Hlo _].
    replace (ndigits (dint x) - 1) with ((ndigits (dint x) - 1 - k) + k)
      in Hlo by lia.
    rewrite pow10_add in Hlo by (unfold k; lia).
    pose proof (pow10_pos k) as Hpk.
    assert (Hq : (pow10 (ndigits (dint x) - 1 - k) <= dint x / pow10 k)%N)
      by (apply N.div_le_lower_bound; lia).
    pose proof (round_shift_lower ROUND_HALF_UP (dint x) k) as Hr.
    assert (Hg : ndigits (dint x) - 1 - k
                 < ndigits (round_shift ROUND_HALF_UP (dint x) k))
      by (apply ndigits_gt; lia).
    unfold k in *. lia.
Qed.

(** What [quant2] does, in full. *)
Lemma quant2_cases x :
  let y := rescale x (-2) ROUND_HALF_UP in
  quant2 x = if ndigits (dint y) <=? prec then OK y
             else Raise InvalidOperation.
Proof.
  intros y. destruct (Z.leb_spec (ndigits (dint y)) prec) as [Hle|Hgt].
  - destruct (is_zero x) eqn:Hz.
    + rewrite (quant2_zero x Hz). unfold y, rescale. rewrite Hz. reflexivity.
    + apply quant2_ok; [assumption| |assumption].
      apply rescale_digits_adjusted; assumption.
  - destruct (quant2 x) as [z|e] eqn:E.
    + apply quant2_inv in E. destruct E as [-> E]. fold y in E. lia.
    + rewrite (quant2_raises x e E). reflexivity.
Qed.

End Quant2More.

(** X1: [quant2] returns the number rescaled to two places, half-up, when
    that has at most 28 digits, and raises [InvalidOperation] otherwise. *)
Theorem quant2_returns_or_raises x :
  let y := rescale x (-2) ROUND_HALF_UP in
  (ndigits (dint y) <= prec -> quant2 x = OK y) /\
  (prec < ndigits (dint y) -> quant2 x = Raise InvalidOperation).
Proof.
  intros y. pose proof (quant2_cases x) as H. cbn zeta in H. fold y in H.
  split; intros Hy; rewrite H.
  - destruct (Z.leb_spec (ndigits (dint y)) prec); [reflexivity|lia].
  - destruct (Z.leb_spec (ndigits (dint y)) prec); [lia|reflexivity].
Qed.

Lemma quant2_returns_or_raises_witness :
  quant2 (mkDecimal false 12345 (-3)) = OK (mkDecimal false 1235 (-2)) /\
  quant2 (mkDecimal false 1 27) = Raise InvalidOperation.
Proof.
  split.
  - apply (proj1 (quant2_returns_or_raises (mkDecimal false 12345 (-3)))).
    vm_compute. discriminate.
  - apply (proj2 (quant2_returns_or_raises (mkDecimal false 1 27))).
    vm_compute. reflexivity.
Defined.

(** X2: [quant2] is idempotent: rounding a rounded value again returns it
    unchanged. *)
Theorem quant2_idempotent x y : quant2 x = OK y -> quant2 y = OK y.
Proof.
  intros H. apply quant2_id, quantized_two_places. exists x. exact H.
Qed.

Lemma quant2_idempotent_witness :
  quant2 (mkDecimal false 12345 (-3)) = OK (mkDecimal false 1235 (-2)) /\
  quant2 (mkDecimal false 1235 (-2)) = OK (mkDecimal false 1235 (-2)).
Proof.
  assert (H : quant2 (mkDecimal false 12345 (-3))
              = OK (mkDecimal false 1235 (-2))) by (vm_compute; reflexivity).
  split; [exact H|].
  exact (quant2_idempotent _ _ H).
Defined.

(** ** [eur] *)

(** X3: on a finite decimal, [eur] rounds before it formats and fails only
    where the rounding does: when [quant2] returns, [eur] returns the string
    it returns for the rounded value; what [eur] raises is what [quant2]
    raised, [InvalidOperation], never the [ValueError] of unpacking the
    split (which a NaN, outside these finite numbers, would meet). *)
Theorem eur_rounds_first x :
  (forall xq, quant2 x = OK xq ->
              exists s, eur x = OK s /\ eur xq = OK s) /\
  (forall e, eur x = Raise e ->
             e = InvalidOperation /\ quant2 x = Raise e).
Proof.
  split.
  - intros xq H.
    pose proof (quantized_two_places xq (ex_intro _ x H)) as T.
    pose proof (eur_two_places xq T) as E. eexists. split; [|exact E].
    unfold eur in *. rewrite H. rewrite (quant2_id xq T) in E. exact E.
  - intros e H. destruct (quant2 x) as [xq|e'] eqn:Q.
    + exfalso.
      pose proof (quantized_two_places xq (ex_intro _ x Q)) as T.
      pose proof (eur_two_places xq T) as E.
      unfold eur in *. rewrite Q in H. rewrite (quant2_id xq T) in E.
      cbn [bind] in H, E. congruence.
    + unfold eur in H. rewrite Q in H. cbn [bind] in H. injection H as <-.
      split; [exact (quant2_raises x e' Q)|reflexivity].
Qed.

Lemma eur_rounds_first_witness :
  exists s, eur (mkDecimal false 12345 (-3)) = OK s /\
            eur (mkDecimal false 1235 (-2)) = OK s.
Proof.
  apply (proj1 (eur_rounds_first (mkDecimal false 12345 (-3)))).
  vm_compute. reflexivity.
Defined.

(** ** The grouping of [eur] *)

Section Grouping.

(** The digits do not depend on the fuel, once there is enough. *)
Lemma lsd_digits_fuel f : forall f' n,
  (n < 2 ^ N.of_nat (S f))%N -> (n < 2 ^ N.of_nat (S f'))%N ->
  lsd_digits (S f) n = lsd_digits (S f') n.
Proof.
  induction f as [|f IH]; intros f' n Hf Hf'.
  - assert (n < 10)%N by (cbn in Hf; lia).
    cbn [lsd_digits]. destruct (N.ltb_spec n 10); [reflexivity|lia].
  - cbn [lsd_digits]. destruct (N.ltb_spec n 10) as [|Hn]; [reflexivity|].
    f_equal.
    assert (Hq : (n / 10 < 2 ^ N.of_nat (S f))%N).
    { rewrite (Nat2N.inj_succ (S f)), N.pow_succ_r' in Hf.
      apply N.Div0.div_lt_upper_bound.
      generalize dependent (2 ^ N.of_nat (S f))%N. intros. lia. }
    destruct f' as [|f'].
    + cbn in Hf'. lia.
    + apply IH; [exact Hq|].
      rewrite (Nat2N.inj_succ (S f')), N.pow_succ_r' in Hf'.
      apply N.Div0.div_lt_upper_bound.
      generalize dependent (2 ^ N.of_nat (S f'))%N. intros. lia.
Qed.

(** [str(n)] is [str(n // 10)] followed by the last digit. *)
Lemma str_of_N_step n :
  (10 <= n)%N -> str_of_N n = str_of_N (n / 10) ++ [digit_char (n mod 10)].
Proof.
  intros Hn. unfold str_of_N, digits.
  cbn [lsd_digits]. destruct (N.ltb_spec n 10) as [|_]; [lia|].
  cbn [rev]. rewrite map_app. cbn [map]. do 3 f_equal.
  pose proof (log2_fuel n) as H.
  assert (Hl : (0 < N.log2 n)%N) by (apply N.log2_pos; lia).
  destruct (N.to_nat (N.log2 n)) as [|f] eqn:E; [lia|].
  apply lsd_digits_fuel; [|apply log2_fuel].
  rewrite (Nat2N.inj_succ (S f)), N.pow_succ_r' in H.
  apply N.Div0.div_lt_upper_bound.
  generalize dependent (2 ^ N.of_nat (S f))%N. intros. lia.
Qed.

Lemma str_of_N_small n : (n < 10)%N -> str_of_N n = [digit_char n].
Proof.
  intros Hn. unfold str_of_N, digits. cbn [lsd_digits].
  destruct (N.ltb_spec n 10); [reflexivity|lia].
Qed.

(** [str(n)] is [str(n // 1000)] followed by three digits. *)
Lemma str_of_N_thousands n :
  (1000 <= n)%N -> str_of_N n = str_of_N (n / 1000) ++ pad3 (n mod 1000).
Proof.
  intros Hn. rewrite (str_of_N_step n) by lia.
  rewrite (str_of_N_step (n / 10)) by lia.
  rewrite (str_of_N_step (n / 10 / 10)) by lia.
  rewrite <- !app_assoc. unfold pad3. cbn [app].
  replace (n / 10 / 10 / 10)%N with (n / 1000)%N by lia.
  replace (n / 10 / 10 mod 10)%N with (n mod 1000 / 100)%N by lia.
  replace (n / 10 mod 10)%N with (n mod 1000 / 10 mod 10)%N by lia.
  replace (n mod 1000 mod 10)%N with (n mod 10)%N by lia.
  reflexivity.
Qed.

Lemma str_of_N_length n : Z.of_nat (length (str_of_N n)) = ndigits n.
Proof. unfold str_of_N, ndigits. rewrite length_map. reflexivity. Qed.

(** Up to three characters make one group. *)
Lemma group_str_short w :
  w <> [] -> (length w <= 3)%nat -> group_str w = w.
Proof.
  intros Hw Hl. unfold group_str.
  destruct w as [|a [|b [|c [|d w]]]]; cbn in Hl; try lia;
    [congruence|reflexivity|reflexivity|reflexivity].
Qed.

(** Three more characters on the right make one more group. *)
Lemma group_str_app3 w a b c :
  w <> [] -> group_str (w ++ [a; b; c]) = group_str w ++ lit "." ++ [a; b; c].
Proof.
  intros Hw. unfold group_str. rewrite rev_app_distr. cbn [rev app chunks].
  destruct (chunks (rev w)) as [|p ps] eqn:E.
  - exfalso. apply Hw. rewrite <- (rev_involutive w).
    rewrite <- (concat_chunks (rev w)), E. reflexivity.
  - cbn [join]. rewrite !rev_app_distr. cbn [rev app lit list_ascii_of_string].
    rewrite <- app_assoc. reflexivity.
Qed.

(** On the digits of a number, the grouping of [eur] is the German
    grouping. *)
Lemma group_str_digits fuel : forall n,
  (n < 2 ^ N.of_nat fuel)%N -> group_str (str_of_N n) = group3_fuel fuel n.
Proof.
  induction fuel as [|f IH]; intros n Hn.
  - cbn in Hn. assert (n = 0%N) as -> by lia. reflexivity.
  - cbn [group3_fuel]. destruct (N.ltb_spec n 1000) as [Hs|Hb].
    + apply group_str_short; [apply str_of_N_nonempty|].
      assert (ndigits n <= 3) by (apply ndigits_le; [lia|exact Hs]).
      rewrite <- str_of_N_length in H. lia.
    + rewrite (str_of_N_thousands n Hb). unfold pad3 at 1.
      rewrite group_str_app3 by apply str_of_N_nonempty.
      rewrite IH; [reflexivity|].
      rewrite Nat2N.inj_succ, N.pow_succ_r' in Hn.
      apply N.Div0.div_lt_upper_bound.
      generalize dependent (2 ^ N.of_nat f)%N. intros. lia.
Qed.

Lemma group_str_group3 n : group_str (str_of_N n) = group3 n.
Proof. apply group_str_digits, log2_fuel. Qed.

(** With a minus sign in front, the sign joins the leftmost group when that
    has one or two digits, and makes a group of its own when it has
    three. *)
Lemma group_str_minus fuel : forall n,
  (n < 2 ^ N.of_nat fuel)%N ->
  group_str ("-"%char :: str_of_N n)
  = lit "-" ++ (if ndigits n mod 3 =? 0 then lit "." else [])
    ++ group3_fuel fuel n.
Proof.
  induction fuel as [|f IH]; intros n Hn.
  - cbn in Hn. assert (n = 0%N) as -> by lia. reflexivity.
  - cbn [group3_fuel]. destruct (N.ltb_spec n 1000) as [Hs|Hb].
    + destruct (N.ltb_spec n 10) as [H1|H1].
      { assert (ndigits n = 1) as ->.
        { pose proof (ndigits_pos n).
          pose proof (ndigits_le n 1 ltac:(lia) H1). lia. }
        rewrite (str_of_N_small n H1). reflexivity. }
      destruct (N.ltb_spec n 100) as [H2|H2].
      { rewrite (ndigits_unique n 2) by (change (pow10 (2 - 1)) with 10%N;
          change (pow10 2) with 100%N; lia).
        rewrite (str_of_N_step n H1), (str_of_N_small (n / 10)) by lia.
        reflexivity. }
      rewrite (ndigits_unique n 3) by (change (pow10 (3 - 1)) with 100%N;
        change (pow10 3) with 1000%N; lia).
      rewrite (str_of_N_step n H1), (str_of_N_step (n / 10)) by lia.
      rewrite (str_of_N_small (n / 10 / 10)) by lia. reflexivity.
    + rewrite (str_of_N_thousands n Hb). unfold pad3 at 1.
      change ("-"%char :: str_of_N (n / 1000) ++ ?l)
        with (("-"%char :: str_of_N (n / 1000)) ++ l).
      rewrite group_str_app3 by discriminate.
      rewrite IH.
      * assert (Hnd : ndigits n = ndigits (n / 1000) + 3).
        { rewrite <- !str_of_N_length, (str_of_N_thousands n Hb).
          rewrite length_app. cbn [pad3 length]. lia. }
        rewrite Hnd.
        replace ((ndigits (n / 1000) + 3) mod 3) with (ndigits (n / 1000) mod 3)
          by lia.
        rewrite <- !app_assoc. reflexivity.
      * rewrite Nat2N.inj_succ, N.pow_succ_r' in Hn.
        apply N.Div0.div_lt_upper_bound.
        generalize dependent (2 ^ N.of_nat f)%N. intros. lia.
Qed.

End Grouping.

(** X4: for a non-negative value rounded to two decimals, [eur] returns the
    whole part in groups of three digits from the right, separated by
    points (none below 1000), a comma, the two digits of the cents, a blank
    and the euro sign. *)
Theorem eur_nonnegative x :
  two_places x -> dsign x = false ->
  eur x = OK (group3 (dint x / 100) ++ lit "," ++ cent_digits x
              ++ lit " " ++ euro_sign).
Proof.
  intros Hx Hs. rewrite (eur_two_places x Hx). unfold sign_str. rewrite Hs.
  cbn [app]. fold (group_str (str_of_N (dint x / 100))).
  rewrite group_str_group3. reflexivity.
Qed.

Lemma eur_nonnegative_witness :
  eur (mkDecimal false 103160000 (-2)) = OK (lit "1.031.600,00 €").
Proof.
  rewrite (eur_nonnegative (mkDecimal false 103160000 (-2))).
  - vm_compute. reflexivity.
  - split; [reflexivity | vm_compute; discriminate].
  - reflexivity.
Defined.

(** X5: for a negative value rounded to two decimals (a negative zero
    included), [eur] returns a minus sign, then the grouped whole part as
    for the positive value, and between the two a point exactly when the
    whole part has a multiple of three digits. *)
Theorem eur_negative x :
  two_places x -> dsign x = true ->
  eur x = OK (lit "-"
              ++ (if ndigits (dint x / 100) mod 3 =? 0 then lit "." else [])
              ++ group3 (dint x / 100) ++ lit "," ++ cent_digits x
              ++ lit " " ++ euro_sign).
Proof.
  intros Hx Hs. rewrite (eur_two_places x Hx). unfold sign_str. rewrite Hs.
  change (lit "-" ++ str_of_N (dint x / 100))
    with ("-"%char :: str_of_N (dint x / 100)).
  fold (group_str ("-"%char :: str_of_N (dint x / 100))).
  rewrite (group_str_minus _ (dint x / 100) (log2_fuel _)).
  fold (group3 (dint x / 100)). rewrite <- !app_assoc. reflexivity.
Qed.

Lemma eur_negative_witness :
  eur (mkDecimal true 141092 (-2)) = OK (lit "-1.410,92 €") /\
  eur (mkDecimal true 10000 (-2)) = OK (lit "-.100,00 €").
Proof.
  split.
  - rewrite (eur_negative (mkDecimal true 141092 (-2))).
    + vm_compute. reflexivity.
    + split; [reflexivity | vm_compute; discriminate].
    + reflexivity.
  - rewrite (eur_negative (mkDecimal true 10000 (-2))).
    + vm_compute. reflexivity.
    + split; [reflexivity | vm_compute; discriminate].
    + reflexivity.
Defined.

(** ** The conversions from per mille and percent *)

Section Conversions.

Lemma ndigits_pow10 j : 0 <= j -> ndigits (pow10 j) = j + 1.
Proof.
  intros Hj. rewrite <- (N.mul_1_l (pow10 j)).
  rewrite ndigits_mul_pow10 by lia. change (ndigits 1) with 1. lia.
Qed.

(** Dividing a number of at most 28 digits by a power of ten is exact: the
    quotient is the same coefficient at a lower exponent, without the
    trailing zeros that the ideal exponent allows to drop. *)
Lemma truediv_pow10 a j :
  0 <= j -> ndigits (dint a) <= prec ->
  Etiny + j <= dexp a -> adjusted a <= Emax ->
  exists t,
    truediv a (mkDecimal false (pow10 j) 0) = OK t /\
    dsign t = dsign a /\
    dexp a - j <= dexp t <= dexp a /\
    (dint t * pow10 (dexp t - (dexp a - j)) = dint a)%N.
Proof.
  intros Hj Hnd Hlo Hhi.
  pose proof (pow10_pos j) as Hpj.
  pose proof (ndigits_pos (dint a)) as Hp.
  unfold truediv.
  replace (is_zero (mkDecimal false (pow10 j) 0)) with false
    by (symmetry; apply N.eqb_neq; cbn; lia).
  cbn [dint dexp dsign]. rewrite xorb_false_r, Z.sub_0_r.
  destruct (is_zero a) eqn:Hz.
  { apply is_zero_true in Hz.
    rewrite fix_id; cbn [dint dexp].
    - eexists. split; [reflexivity|]. cbn [dsign dint dexp].
      split; [reflexivity|]. split; [lia|]. rewrite Hz. reflexivity.
    - cbn. unfold prec. lia.
    - lia.
    - unfold adjusted in *. cbn [dint dexp]. rewrite Hz in Hhi.
      change (ndigits 0) with 1 in *. lia.
    - unfold adjusted in Hhi. lia. }
  assert (Hc : (0 < dint a)%N) by (apply is_zero_false in Hz; lia).
  rewrite (ndigits_pow10 j Hj).
  set (shift := j + 1 - ndigits (dint a) + prec + 1).
  assert (Hshift : j + 2 <= shift) by (unfold shift; lia).
  destruct (Z.leb_spec 0 shift) as [_|]; [|lia].
  assert (Hsplit : pow10 shift = (pow10 (shift - j) * pow10 j)%N).
  { rewrite <- pow10_add by lia. f_equal. lia. }
  assert (Hdiv : (dint a * pow10 shift / pow10 j
                  = dint a * pow10 (shift - j))%N).
  { rewrite Hsplit, N.mul_assoc. apply N.div_mul. lia. }
  assert (Hmod : (dint a * pow10 shift mod pow10 j = 0)%N).
  { rewrite Hsplit, N.mul_assoc. apply N.Div0.mod_mul. }
  rewrite Hmod, Hdiv. cbn [N.eqb negb].
  replace (dexp a - (dexp a - shift)) with shift by lia.
  set (exp0 := dexp a - shift).
  pose proof (strip_zeros_spec (Z.to_nat shift) (dint a * pow10 (shift - j))
                exp0) as Hs.
  cbn zeta in Hs. destruct Hs as (H1 & H2 & H3).
  destruct (strip_zeros _ _ _) as [c' e']. cbn [fst snd] in *.
  assert (He' : dexp a - j <= e').
  { destruct (Z_le_gt_dec (dexp a - j) e') as [|Hgt]; [assumption|exfalso].
    destruct H3 as [H3|H3]; [unfold exp0 in *; lia|].
    assert (E : pow10 (shift - j)
                = (pow10 (e' - exp0) * pow10 (shift - j - (e' - exp0) - 1)
                   * 10)%N).
    { change 10%N with (pow10 1). rewrite <- !pow10_add by (unfold exp0; lia).
      f_equal. lia. }
    rewrite E in H1. pose proof (pow10_pos (e' - exp0)).
    assert (c' = dint a * pow10 (shift - j - (e' - exp0) - 1) * 10)%N.
    { apply (N.mul_cancel_r _ _ (pow10 (e' - exp0))); lia. }
    lia. }
  assert (Hval : (c' * pow10 (e' - (dexp a - j)) = dint a)%N).
  { assert (E : pow10 (e' - exp0)
                = (pow10 (e' - (dexp a - j)) * pow10 (shift - j))%N).
    { rewrite <- pow10_add by (unfold exp0; lia). f_equal.
      unfold exp0. lia. }
    rewrite E in H1. pose proof (pow10_pos (shift - j)).
    apply (N.mul_cancel_r _ _ (pow10 (shift - j))); lia. }
  assert (Hc' : (0 < c')%N) by nia.
  assert (Hdig : ndigits (dint a) = ndigits c' + (e' - (dexp a - j))).
  { rewrite <- Hval. apply ndigits_mul_pow10; lia. }
  rewrite fix_id; cbn [dint dexp].
  - eexists. split; [reflexivity|]. cbn [dsign dint dexp].
    split; [reflexivity|]. split; [unfold exp0 in *; lia|exact Hval].
  - lia.
  - lia.
  - unfold adjusted in *. cbn [dint dexp]. lia.
  - unfold adjusted, exp0 in *. lia.
Qed.

End Conversions.

(** X6: the two conversions of [berechne], [mess / Decimal("1000")] and
    [heb / Decimal("100")], lose nothing: for an input of at most 28 digits
    (and an exponent inside the context's range) the quotient is returned
    and is exactly the input times [10^-3], respectively [10^-2], with the
    sign kept. *)
Theorem conversions_exact m h :
  ndigits (dint m) <= prec -> Etiny + 3 <= dexp m -> adjusted m <= Emax ->
  ndigits (dint h) <= prec -> Etiny + 2 <= dexp h -> adjusted h <= Emax ->
  exists mess heb,
    truediv (d m) Decimal_1000 = OK mess /\
    truediv (d h) Decimal_100 = OK heb /\
    dsign mess = dsign m /\ dsign heb = dsign h /\
    (dint mess * pow10 (dexp mess - (dexp m - 3)) = dint m)%N /\
    (dint heb * pow10 (dexp heb - (dexp h - 2)) = dint h)%N /\
    dexp m - 3 <= dexp mess <= dexp m /\ dexp h - 2 <= dexp heb <= dexp h.
Proof.
  intros M1 M2 M3 H1 H2 H3.
  destruct (truediv_pow10 m 3 ltac:(lia) M1 M2 M3) as (mess & Em & Sm & Xm & Vm).
  destruct (truediv_pow10 h 2 ltac:(lia) H1 H2 H3) as (heb & Eh & Sh & Xh & Vh).
  exists mess, heb. unfold d. repeat split; try assumption; lia.
Qed.

Lemma conversions_exact_witness :
  exists mess heb,
    truediv (d (mkDecimal false 31 (-2))) Decimal_1000 = OK mess /\
    truediv (d (mkDecimal false 470 0)) Decimal_100 = OK heb /\
    mess = mkDecimal false 31 (-5) /\ heb = mkDecimal false 47 (-1).
Proof.
  destruct (conversions_exact (mkDecimal false 31 (-2)) (mkDecimal false 470 0))
    as (mess & heb & Em & Eh & _).
  1-6: vm_compute; discriminate.
  exists mess, heb. split; [exact Em|]. split; [exact Eh|].
  vm_compute in Em, Eh. injection Em as <-. injection Eh as <-.
  split; reflexivity.
Defined.

(** ** Reading a numeral: [Decimal] of a string *)

Section DecimalStr.

Lemma break_at_none p s :
  (forall c, In c s -> p c = false) -> break_at p s = (s, None).
Proof.
  induction s as [|c s IH]; intros H; [reflexivity|].
  cbn [break_at]. rewrite (H c (or_introl eq_refl)).
  rewrite IH; [reflexivity|]. intros c' Hc'. apply H. right. exact Hc'.
Qed.

Lemma break_at_app p a c0 b :
  (forall c, In c a -> p c = false) -> p c0 = true ->
  break_at p (a ++ c0 :: b) = (a, Some b).
Proof.
  intros Ha Hc0. induction a as [|c a IH].
  - cbn [app break_at]. rewrite Hc0. reflexivity.
  - cbn [app break_at]. rewrite (Ha c (or_introl eq_refl)).
    rewrite IH; [reflexivity|]. intros c' Hc'. apply Ha. right. exact Hc'.
Qed.

Lemma digit_not_E c : In c (lit "0123456789") -> is_E c = false.
Proof.
  cbn. intros H.
  repeat (destruct H as [<-|H]; [reflexivity|]). destruct H.
Qed.

Lemma all_digits_app s t : all_digits s -> all_digits t -> all_digits (s ++ t).
Proof. intros Hs Ht c Hc. apply in_app_or in Hc. destruct Hc; auto. Qed.

Lemma all_digits_str_of_N n : all_digits (str_of_N n).
Proof. intros c. apply str_of_N_chars. Qed.

Lemma nonempty_digits_true s :
  all_digits s -> s <> [] -> nonempty_digits s = true.
Proof.
  intros H Hne. unfold nonempty_digits.
  rewrite (forallb_digits s H). destruct s; [congruence|reflexivity].
Qed.

(** An exponent written with its sign is read back. *)
Lemma signed_int_round_trip k : signed_int_of_str (str_of_Z_signed k) = Some k.
Proof.
  unfold str_of_Z_signed, signed_int_of_str.
  pose proof (nonempty_digits_true (str_of_N (Z.abs_N k))
                (all_digits_str_of_N _) (str_of_N_nonempty _)) as Hd.
  destruct (Z.ltb_spec k 0); cbn [lit list_ascii_of_string app];
    cbn [Ascii.eqb Bool.eqb]; rewrite Hd, int_of_str_of_N; f_equal; lia.
Qed.

(** Reading a numeral laid out as sign, integer digits, an optional point
    with fraction digits, and an exponent when it is not zero. *)
Lemma Decimal_from_str_layout (sign : bool) ip (frac : option str) k :
  all_digits ip -> ip <> [] ->
  (forall f, frac = Some f -> all_digits f) ->
  let fp := match frac with Some f => f | None => [] end in
  Decimal_from_str
    ((if sign then lit "-" else [])
     ++ ip ++ (match frac with Some f => "."%char :: f | None => [] end)
     ++ (if k =? 0 then [] else lit "E" ++ str_of_Z_signed k))
  = Some (mkDecimal sign (int_of_str (ip ++ fp)) (k - Z.of_nat (length fp))).
Proof.
  intros Hip Hne Hfrac fp.
  assert (Hfp : all_digits fp).
  { unfold fp. destruct frac as [f|]; [apply Hfrac; reflexivity|intros c []]. }
  set (fs := match frac with Some f => "."%char :: f | None => [] end).
  set (es := if k =? 0 then [] else lit "E" ++ str_of_Z_signed k).
  assert (Hbody : forall body,
             body = ip ++ fs ++ es ->
             (let '(mantissa, exppart) := break_at is_E body in
              let '(intpart, fracpart) :=
                match break_at (fun c => Ascii.eqb c "."%char) mantissa with
                | (i, Some f) => (i, f)
                | (i, None) => (i, [])
                end in
              let exp := match exppart with
                         | None => Some 0
                         | Some e => signed_int_of_str e
                         end in
              match exp with
              | Some e =>
                  if nonempty_digits (intpart ++ fracpart) then
                    Some (mkDecimal sign (int_of_str (intpart ++ fracpart))
                            (e - Z.of_nat (length fracpart)))
                  else None
              | None => None
              end)
             = Some (mkDecimal sign (int_of_str (ip ++ fp))
                       (k - Z.of_nat (length fp)))).
  { intros body ->.
    assert (HnoE : forall c, In c (ip ++ fs) -> is_E c = false).
    { intros c Hc. apply in_app_or in Hc. destruct Hc as [Hc|Hc].
      - apply digit_not_E, Hip, Hc.
      - unfold fs in Hc. destruct frac as [f|]; [|destruct Hc].
        destruct Hc as [<-|Hc]; [reflexivity|].
        apply digit_not_E. exact (Hfrac f eq_refl c Hc). }
    assert (Hmant : break_at (fun c => Ascii.eqb c "."%char) (ip ++ fs)
                    = (ip, frac)).
    { assert (Hnd : forall c, In c ip -> Ascii.eqb c "."%char = false).
      { intros c Hc. apply digit_not_sep; [apply Hip, Hc|cbn; tauto]. }
      unfold fs. destruct frac as [f|].
      - apply break_at_app; [exact Hnd|reflexivity].
      - rewrite app_nil_r. apply break_at_none. exact Hnd. }
    assert (Hdig : nonempty_digits (ip ++ fp) = true).
    { apply nonempty_digits_true; [apply all_digits_app; assumption|].
      destruct ip; [congruence|discriminate]. }
    rewrite app_assoc. unfold es.
    destruct (Z.eqb_spec k 0) as [->|Hk].
    - rewrite app_nil_r, (break_at_none _ _ HnoE), Hmant.
      fold fp. destruct frac; cbn zeta; fold fp; rewrite Hdig; reflexivity.
    - change (lit "E" ++ str_of_Z_signed k)
        with ("E"%char :: str_of_Z_signed k).
      rewrite (break_at_app is_E _ "E"%char _ HnoE eq_refl), Hmant.
      rewrite signed_int_round_trip.
      fold fp. destruct frac; cbn zeta; fold fp; rewrite Hdig; reflexivity. }
  unfold Decimal_from_str. destruct sign.
  - change (lit "-" ++ ip ++ fs ++ es) with ("-"%char :: ip ++ fs ++ es).
    cbv iota. rewrite Ascii.eqb_refl. cbv iota. apply Hbody. reflexivity.
  - cbn [app]. destruct ip as [|c0 ip'] eqn:Eip; [congruence|].
    assert (Hc0 : In c0 (lit "0123456789"))
      by (apply Hip; left; reflexivity).
    cbn [app]. cbv iota.
    rewrite (digit_not_sep c0 "-"%char Hc0) by (cbn; tauto).
    rewrite (digit_not_sep c0 "+"%char Hc0) by (cbn; tauto).
    cbv iota. apply Hbody. reflexivity.
Qed.

End DecimalStr.

(** [Decimal(str(n))] for an [int] is the integer with exponent 0. *)
Lemma Decimal_str_of_int n : Decimal_from_str (str_of_Z n) = Some (of_int n).
Proof.
  unfold str_of_Z, of_int.
  pose proof (Decimal_from_str_layout (n <? 0) (str_of_N (Z.abs_N n)) None 0
                (all_digits_str_of_N _) (str_of_N_nonempty _)) as H.
  cbn zeta in H. cbn [Z.eqb] in H. rewrite !app_nil_r in H.
  rewrite int_of_str_of_N in H. apply H. intros f [=].
Qed.

(** ** The converter [d] on an [int] *)

(** X7: [d] turns an [int] into the decimal of that integer, exactly.  An
    [int] is not a [Decimal], so [d] returns [Decimal(str(n))]; for an
    integer of at most 4300 digits (the most CPython converts to a string
    by default) this is the decimal with the sign of [n], the magnitude of
    [n] as coefficient and the exponent 0, without rounding, whatever the
    precision: the number [berechne] multiplies the saving per year by. *)
Theorem d_of_int n :
  ndigits (Z.abs_N n) <= 4300 ->
  d_int n = OK (of_int n) /\
  dsign (of_int n) = (n <? 0) /\ Z.of_N (dint (of_int n)) = Z.abs n /\
  dexp (of_int n) = 0.
Proof.
  intros _. unfold d_int. rewrite Decimal_str_of_int.
  split; [reflexivity|]. unfold of_int. cbn [dsign dint dexp].
  repeat split. lia.
Qed.

Lemma d_of_int_witness :
  d_int 4 = OK (mkDecimal false 4 0) /\
  d_int (-4) = OK (mkDecimal true 4 0).
Proof.
  split.
  - apply (d_of_int 4). vm_compute. discriminate.
  - apply (d_of_int (-4)). vm_compute. discriminate.
Defined.

(** ** Order: lower values, lower taxes *)

Section Monotone.

(** Rounding is monotone. *)
Lemma round_shift_mono r c c' k :
  (c <= c')%N -> (round_shift r c k <= round_shift r c' k)%N.
Proof.
  intros Hc. pose proof (pow10_pos k) as Hp.
  destruct (N.eq_dec (c / pow10 k) (c' / pow10 k)) as [E|E].
  - unfold round_shift, round_up. cbv zeta.
    pose proof (N.Div0.div_mod c (pow10 k)) as H1.
    pose proof (N.Div0.div_mod c' (pow10 k)) as H2.
    rewrite <- E in *.
    set (p := pow10 k) in *. set (q := (c / p)%N) in *.
    set (rm := (c mod p)%N) in *. set (rm' := (c' mod p)%N) in *.
    assert (Hrm : (rm <= rm')%N) by nia.
    destruct r.
    + destruct (N.leb_spec p (2 * rm)), (N.leb_spec p (2 * rm')); lia.
    + destruct (N.even q); rewrite ?andb_true_r, ?andb_false_r;
        destruct (N.eqb_spec (2 * rm) p), (N.eqb_spec (2 * rm') p),
                 (N.leb_spec p (2 * rm)), (N.leb_spec p (2 * rm')); lia.
  - assert (c / pow10 k <= c' / pow10 k)%N
      by (apply N.Div0.div_le_mono; exact Hc).
    pose proof (round_shift_upper r c k).
    pose proof (round_shift_lower r c' k). lia.
Qed.

(** Rounding a multiple of the unit returns the multiple. *)
Lemma round_shift_exact r a k : round_shift r (a * pow10 k) k = a.
Proof.
  pose proof (pow10_pos k) as Hp.
  unfold round_shift, round_up. cbv zeta.
  rewrite N.div_mul by lia. rewrite N.Div0.mod_mul.
  destruct r; cbn [N.mul].
  - destruct (N.leb_spec (pow10 k) 0); [lia | reflexivity].
  - destruct (N.eqb_spec 0 (pow10 k)); [lia|]. cbn [andb].
    destruct (N.leb_spec (pow10 k) 0); [lia | reflexivity].
Qed.

(** Trailing zeros that are dropped anyway do not change the rounding. *)
Lemma round_shift_mul r a k j :
  0 < k -> 0 <= j ->
  round_shift r (a * pow10 j) (k + j) = round_shift r a k.
Proof.
  intros Hk Hj. pose proof (pow10_pos k) as Hp. pose proof (pow10_pos j) as Hq.
  unfold round_shift, round_up. cbv zeta.
  rewrite (pow10_add k j) by lia.
  rewrite N.Div0.div_mul_cancel_r by lia.
  rewrite N.Div0.mul_mod_distr_r.
  set (p := pow10 k) in *. set (J := pow10 j) in *.
  set (q := (a / p)%N). set (rm := (a mod p)%N).
  assert (E1 : ((p * J <=? 2 * (rm * J)) = (p <=? 2 * rm))%N).
  { destruct (N.leb_spec (p * J) (2 * (rm * J))), (N.leb_spec p (2 * rm));
      try reflexivity; nia. }
  assert (E2 : ((2 * (rm * J) =? p * J) = (2 * rm =? p))%N).
  { destruct (N.eqb_spec (2 * (rm * J)) (p * J)), (N.eqb_spec (2 * rm) p);
      try reflexivity; nia. }
  destruct r; rewrite ?E1, ?E2; reflexivity.
Qed.


Lemma round_to_context_mono K X Y :
  0 <= K -> (X <= Y)%N -> (round_to_context K X <= round_to_context K Y)%N.
Proof.
  intros HK HXY. unfold round_to_context. cbv zeta.
  pose proof (ndigits_mono X Y HXY) as Hn.
  set (kX := Z.max (ndigits X - prec) K).
  set (kY := Z.max (ndigits Y - prec) K).
  destruct (Z.eq_dec kX kY) as [E|E].
  - rewrite <- E. apply N.mul_le_mono_r. apply round_shift_mono. exact HXY.
  - assert (HkY : kY = ndigits Y - prec /\ kX < kY /\ ndigits X < ndigits Y)
      by (unfold kX, kY in *; lia).
    destruct HkY as (HkY & Hlt & Hnn).
    assert (HkX : 0 <= kX) by (unfold kX; lia).
    assert (HY0 : (0 < Y)%N).
    { destruct (N.eq_dec Y 0) as [->|]; [|lia].
      rewrite ndigits_0 in HkY. unfold prec in HkY. lia. }
    set (P := pow10 (ndigits Y - 1)).
    assert (HXP : (X <= P)%N).
    { pose proof (ndigits_upper X).
      pose proof (pow10_le (ndigits X) (ndigits Y - 1) ltac:(lia)).
      unfold P. lia. }
    assert (HPY : (P <= Y)%N).
    { unfold P. apply ndigits_low; [exact HY0 | lia]. }
    assert (EX : P = (pow10 (ndigits Y - 1 - kX) * pow10 kX)%N).
    { unfold P. rewrite <- pow10_add by (unfold prec in *; lia).
      f_equal. lia. }
    assert (EY : P = (pow10 27 * pow10 kY)%N).
    { unfold P. rewrite <- pow10_add by (unfold prec in *; lia).
      f_equal. unfold prec in *. lia. }
    pose proof (round_shift_mono ROUND_HALF_EVEN X P kX HXP) as H1.
    rewrite EX in H1. rewrite round_shift_exact in H1.
    pose proof (round_shift_mono ROUND_HALF_EVEN P Y kY HPY) as H2.
    rewrite EY in H2. rewrite round_shift_exact in H2.
    apply N.le_trans with P.
    + rewrite EX. apply N.mul_le_mono_r. exact H1.
    + rewrite EY. apply N.mul_le_mono_r. exact H2.
Qed.

(** The same coefficient at a lower exponent. *)
Lemma scaled_base x b b0 :
  b0 <= b -> b <= dexp x -> scaled x b0 = (scaled x b * pow10 (b - b0))%N.
Proof.
  intros H0 H1. unfold scaled.
  replace (dexp x - b0) with ((dexp x - b) + (b - b0)) by lia.
  rewrite pow10_add by lia. lia.
Qed.

(** The order of two non-negative decimals, read at a common exponent. *)
Lemma Dle_scaled x y b :
  dsign x = false -> dsign y = false -> b <= dexp x -> b <= dexp y ->
  Dle x y <-> (scaled x b <= scaled y b)%N.
Proof.
  intros Hx Hy Hbx Hby. unfold Dle, cents. rewrite Hx, Hy. cbv zeta.
  set (m := Z.min (dexp x) (dexp y)).
  assert (Hm : b <= m) by (unfold m; lia).
  rewrite (scaled_base x m b), (scaled_base y m b) by (unfold m; lia).
  unfold scaled. pose proof (pow10_pos (m - b)).
  rewrite <- !N2Z.inj_mul. split; intros H'; nia.
Qed.


Lemma round_shift_zero r k : round_shift r 0 k = 0%N.
Proof.
  pose proof (round_shift_exact r 0 k) as H. rewrite N.mul_0_l in H. exact H.
Qed.

(** What [_fix] returns, read at an exponent below the operand's and below
    [Etiny]: the coefficient rounded to the context. *)
Lemma fix_scaled x y b :
  b <= dexp x -> b <= Etiny -> fix_ x = OK y ->
  dsign y = dsign x /\ b <= dexp y /\
  scaled y b = round_to_context (Etiny - b) (scaled x b).
Proof.
  intros Hb HE H. unfold fix_ in H.
  destruct (is_zero x) eqn:Z.
  - injection H as <-. cbn [dsign dexp]. split; [reflexivity|]. split.
    + unfold Etiny, Emin, Emax, prec in *. lia.
    + apply is_zero_true in Z. unfold scaled, round_to_context.
      cbn [dint]. rewrite Z, !N.mul_0_l, round_shift_zero. reflexivity.
  - cbv zeta in H.
    pose proof (is_zero_false x Z) as Hc0.
    assert (Hc : (0 < dint x)%N) by lia.
    set (c := dint x) in *. set (e := dexp x) in *.
    set (nd := ndigits c) in *.
    destruct (nd + e - prec >? Etop) eqn:Htop; [discriminate|].
    set (g := if nd + e - prec <? Etiny then Etiny else nd + e - prec) in *.
    assert (Hg : g = Z.max (nd + e - prec) Etiny).
    { unfold g. destruct (Z.ltb_spec (nd + e - prec) Etiny); lia. }
    assert (HnX : ndigits (scaled x b) = nd + (e - b)).
    { unfold scaled. apply ndigits_mul_pow10; [exact Hc | lia]. }
    assert (Hk : Z.max (ndigits (scaled x b) - prec) (Etiny - b) = g - b)
      by lia.
    unfold round_to_context. cbv zeta. rewrite Hk.
    destruct (e <? g) eqn:Hlt.
    + apply Z.ltb_lt in Hlt.
      assert (HR : round_shift ROUND_HALF_EVEN (scaled x b) (g - b)
                   = round_shift ROUND_HALF_EVEN c (g - e)).
      { unfold scaled. fold c e.
        replace (g - b) with ((g - e) + (e - b)) by lia.
        apply round_shift_mul; lia. }
      rewrite HR. unfold round_shift.
      assert (Hq : (c / pow10 (g - e) < pow10 prec)%N).
      { destruct (Z.le_gt_cases (g - e) nd) as [Hle|Hgt].
        - pose proof (drop_digits_upper c (g - e) ltac:(lia) Hle) as Hd.
          pose proof (pow10_le (nd - (g - e)) prec ltac:(lia)). fold nd in Hd.
          lia.
        - pose proof (ndigits_upper c) as Hu. fold nd in Hu.
          pose proof (pow10_le nd (g - e) ltac:(lia)).
          rewrite N.div_small by lia. apply pow10_pos. }
      destruct (round_up ROUND_HALF_EVEN c (g - e)).
      * destruct (ndigits (c / pow10 (g - e) + 1) >? prec) eqn:Hov.
        -- destruct (g + 1 >? Etop); [discriminate|]. injection H as <-.
           cbn [dsign dexp]. split; [reflexivity|]. split; [lia|].
           apply Z.gtb_lt in Hov.
           assert (Hpos : (0 < c / pow10 (g - e) + 1)%N)
             by (apply N.add_pos_r; reflexivity).
           pose proof (ndigits_low _ prec Hpos Hov) as Hlow.
           assert (E : (c / pow10 (g - e) + 1 = pow10 prec)%N) by lia.
           rewrite E. unfold scaled. cbn [dint dexp].
           replace (g + 1 - b) with ((g - b) + 1) by lia.
           rewrite (pow10_succ (g - b)) by lia.
           assert (E28 : pow10 prec = (pow10 prec / 10 * 10)%N)
             by (vm_compute; reflexivity).
           set (A := (pow10 prec / 10)%N) in *. rewrite E28.
           set (C := pow10 (g - b)). lia.
        -- destruct (g >? Etop); [discriminate|]. injection H as <-.
           cbn [dsign dexp]. split; [reflexivity|]. split; [lia|].
           reflexivity.
      * destruct (g >? Etop); [discriminate|]. injection H as <-.
        cbn [dsign dexp]. split; [reflexivity|]. split; [lia|].
        reflexivity.
    + apply Z.ltb_ge in Hlt. injection H as <-.
      split; [reflexivity|]. split; [exact Hb|].
      rewrite (scaled_base x g b) by (fold e; lia).
      rewrite round_shift_exact. reflexivity.
Qed.


(** [_fix] keeps the order of non-negative numbers. *)
Lemma fix_mono x y x' y' :
  dsign x = false -> dsign y = false -> Dle x y ->
  fix_ x = OK x' -> fix_ y = OK y' ->
  dsign x' = false /\ dsign y' = false /\ Dle x' y'.
Proof.
  intros Sx Sy Hle Hx Hy.
  set (b := Z.min (Z.min (dexp x) (dexp y)) Etiny).
  destruct (fix_scaled x x' b ltac:(lia) ltac:(lia) Hx) as (Sx' & Bx & Vx).
  destruct (fix_scaled y y' b ltac:(lia) ltac:(lia) Hy) as (Sy' & By & Vy).
  rewrite Sx in Sx'. rewrite Sy in Sy'.
  split; [exact Sx'|]. split; [exact Sy'|].
  apply (Dle_scaled x' y' b Sx' Sy' Bx By). rewrite Vx, Vy.
  apply round_to_context_mono; [lia|].
  apply (Dle_scaled x y b Sx Sy); [lia | lia | exact Hle].
Qed.

(** The product with a non-negative factor keeps the order. *)
Lemma mul_mono x y h x' y' :
  dsign x = false -> dsign y = false -> dsign h = false -> Dle x y ->
  mul x h = OK x' -> mul y h = OK y' ->
  dsign x' = false /\ dsign y' = false /\ Dle x' y'.
Proof.
  intros Sx Sy Sh Hle Hx Hy. unfold mul in Hx, Hy.
  rewrite Sx, Sh in Hx. rewrite Sy, Sh in Hy. cbn [xorb] in Hx, Hy.
  set (px := mkDecimal false (dint x * dint h) (dexp x + dexp h)) in *.
  set (py := mkDecimal false (dint y * dint h) (dexp y + dexp h)) in *.
  apply (fix_mono px py x' y' eq_refl eq_refl); [|exact Hx|exact Hy].
  set (b := Z.min (dexp x) (dexp y)).
  apply (Dle_scaled x y b Sx Sy) in Hle; [|lia|lia].
  apply (Dle_scaled px py (b + dexp h) eq_refl eq_refl);
    [cbn [dexp px]; lia | cbn [dexp py]; lia |].
  unfold px, py.
  unfold scaled in *. cbn [dint dexp].
  replace (dexp x + dexp h - (b + dexp h)) with (dexp x - b) by lia.
  replace (dexp y + dexp h - (b + dexp h)) with (dexp y - b) by lia.
  nia.
Qed.

(** [quant2] keeps the order of non-negative numbers. *)
Lemma quant2_scaled x y b :
  b <= dexp x -> b <= -2 -> quant2 x = OK y ->
  dint y = round_shift ROUND_HALF_UP (scaled x b) (-2 - b).
Proof.
  intros Hb Hb2 H. destruct (quant2_inv x y H) as (-> & _).
  unfold rescale. destruct (is_zero x) eqn:Z.
  - apply is_zero_true in Z. unfold scaled. rewrite Z, N.mul_0_l.
    rewrite round_shift_zero. reflexivity.
  - destruct (-2 <=? dexp x) eqn:E; cbn [dint].
    + apply Z.leb_le in E. rewrite (scaled_base x (-2) b) by lia.
      rewrite round_shift_exact. reflexivity.
    + apply Z.leb_gt in E. unfold scaled.
      replace (-2 - b) with ((-2 - dexp x) + (dexp x - b)) by lia.
      rewrite round_shift_mul by lia. reflexivity.
Qed.

Lemma quant2_mono x y x' y' :
  dsign x = false -> dsign y = false -> Dle x y ->
  quant2 x = OK x' -> quant2 y = OK y' ->
  dsign x' = false /\ dsign y' = false /\ cents x' <= cents y'.
Proof.
  intros Sx Sy Hle Hx Hy.
  pose proof (quant2_sign x x' Hx) as Sx'. rewrite Sx in Sx'.
  pose proof (quant2_sign y y' Hy) as Sy'. rewrite Sy in Sy'.
  split; [exact Sx'|]. split; [exact Sy'|].
  set (b := Z.min (Z.min (dexp x) (dexp y)) (-2)).
  unfold cents. rewrite Sx', Sy'.
  rewrite (quant2_scaled x x' b ltac:(lia) ltac:(lia) Hx).
  rewrite (quant2_scaled y y' b ltac:(lia) ltac:(lia) Hy).
  apply N2Z.inj_le. apply round_shift_mono.
  apply (Dle_scaled x y b Sx Sy); [lia | lia | exact Hle].
Qed.

(** The tax is monotone in the value, for non-negative rates. *)
Lemma steuer_mono w1 w2 m h s1 s2 :
  dsign w1 = false -> dsign w2 = false -> dsign m = false ->
  dsign h = false -> Dle w1 w2 ->
  steuer w1 m h = OK s1 -> steuer w2 m h = OK s2 ->
  dsign s1 = false /\ dsign s2 = false /\ cents s1 <= cents s2.
Proof.
  intros S1 S2 Sm Sh Hle H1 H2. unfold steuer in H1, H2.
  bind_inv H1. bind_inv H1. bind_inv H2. bind_inv H2.
  destruct (mul_mono w1 w2 m _ _ S1 S2 Sm Hle E E1) as (Sa & Sb & Hab).
  destruct (mul_mono _ _ h _ _ Sa Sb Sh Hab E0 E2) as (Sc & Sd & Hcd).
  exact (quant2_mono _ _ _ _ Sc Sd Hcd H1 H2).
Qed.


Lemma fix_sign x y : fix_ x = OK y -> dsign y = dsign x.
Proof.
  intros H.
  exact (proj1 (fix_scaled x y (Z.min (dexp x) Etiny)
                  ltac:(lia) ltac:(lia) H)).
Qed.

Lemma truediv_sign a b t :
  truediv a b = OK t -> dsign t = xorb (dsign a) (dsign b).
Proof.
  unfold truediv. cbv zeta. intros H.
  destruct (is_zero b); [destruct (is_zero a); discriminate|].
  destruct (is_zero a); [exact (fix_sign _ _ H)|].
  match type of H with
  | (if ?c then _ else _) = _ => destruct c
  end; [exact (fix_sign _ _ H)|].
  match type of H with
  | (let '(_, _) := ?p in _) = _ => destruct p
  end.
  exact (fix_sign _ _ H).
Qed.

(** The threshold of a non-negative value with at most two decimals is at
    most the value. *)
Lemma schwelle_le g v :
  dsign g = false -> -2 <= dexp g -> (to_cents g < pow10 26)%N ->
  schwelle g = OK v -> dsign v = false /\ Dle v g.
Proof.
  intros Sg He Hn Hv. unfold to_cents in Hn.
  rewrite (schwelle_exact_rounding g He Hn) in Hv.
  set (T := ((10 * (dint g * pow10 (dexp g + 2)) + 7) / 14)%N) in Hv.
  assert (E : v = mkDecimal (dsign g) T (-2)) by congruence.
  rewrite E. cbn [dsign]. split; [exact Sg|].
  unfold Dle, cents. cbn [dsign dint dexp]. rewrite Sg.
  rewrite Z.min_l by lia. rewrite Z.sub_diag. change (pow10 0) with 1%N.
  replace (dexp g - -2) with (dexp g + 2) by lia.
  rewrite <- (N2Z.inj_mul (dint g)). unfold T.
  generalize (dint g * pow10 (dexp g + 2))%N. intros n. lia.
Qed.

Lemma cents_nonneg x : dsign x = false -> 0 <= cents x.
Proof. intros S. unfold cents. rewrite S. lia. Qed.

End Monotone.

(** X8: the tax is monotone in the assessed value.  For two runs of
    [berechne] on finite inputs with the same two rates, both rates and both
    assessed values non-negative, the run with the lower assessed value
    returns a current tax that is not higher, and not negative.  No bound
    on the size or the number of decimals of the inputs is needed: the
    roundings of the two products to 28 digits and the final rounding to
    cents all keep the order. *)
Theorem tax_monotone i1 i2 r1 r2 :
  messzahl_permille i1 = messzahl_permille i2 ->
  hebesatz_prozent i1 = hebesatz_prozent i2 ->
  dsign (messzahl_permille i1) = false ->
  dsign (hebesatz_prozent i1) = false ->
  dsign (grundsteuerwert i1) = false ->
  dsign (grundsteuerwert i2) = false ->
  Dle (grundsteuerwert i1) (grundsteuerwert i2) ->
  berechne i1 = OK r1 -> berechne i2 = OK r2 ->
  0 <= cents (steuer_status_quo r1) <= cents (steuer_status_quo r2).
Proof.
  intros Em Eh Sm Sh S1 S2 Hle H1 H2.
  destruct (berechne_inv i1 r1 H1) as (mess & heb & Hm & Hh & Hnow1 & _).
  destruct (berechne_inv i2 r2 H2) as (mess' & heb' & Hm' & Hh' & Hnow2 & _).
  rewrite <- Em, Hm in Hm'. injection Hm' as <-.
  rewrite <- Eh, Hh in Hh'. injection Hh' as <-.
  pose proof (truediv_sign _ _ _ Hm) as Smess. rewrite Sm in Smess.
  pose proof (truediv_sign _ _ _ Hh) as Sheb. rewrite Sh in Sheb.
  destruct (steuer_mono _ _ _ _ _ _ S1 S2 Smess Sheb Hle Hnow1 Hnow2)
    as (Sa & _ & Hs).
  split; [apply cents_nonneg; exact Sa | exact Hs].
Qed.

Lemma tax_monotone_witness :
  exists r1,
    berechne (mkInputs (mkDecimal false 600000 0) (mkDecimal false 31 (-2))
                (mkDecimal false 470 0) 4 None) = OK r1 /\
    0 <= cents (steuer_status_quo r1) <= cents (steuer_status_quo result_A).
Proof.
  eexists. split; [vm_compute; reflexivity|].
  apply (tax_monotone
           (mkInputs (mkDecimal false 600000 0) (mkDecimal false 31 (-2))
              (mkDecimal false 470 0) 4 None) scenario_A);
    try reflexivity.
  unfold Dle. cbn. lia.
Defined.

(** X9: the saving at the threshold is never negative.  For a non-negative
    assessed value with at most two decimals and below [10^24], and
    non-negative rates, a result of [berechne] has a tax at the threshold
    between zero and the current tax, a saving per year that is not
    negative, and, for a non-negative number of years, a total saving that
    is not negative. *)
Theorem threshold_saving_nonnegative i r :
  dsign (grundsteuerwert i) = false ->
  -2 <= dexp (grundsteuerwert i) ->
  (to_cents (grundsteuerwert i) < pow10 26)%N ->
  dsign (messzahl_permille i) = false ->
  dsign (hebesatz_prozent i) = false ->
  berechne i = OK r ->
  0 <= cents (steuer_beim_schwellenwert r) <= cents (steuer_status_quo r) /\
  0 <= cents (ersparnis_pro_jahr_schwelle r) /\
  (0 <= years i -> 0 <= cents (ersparnis_gesamt_schwelle r)).
Proof.
  intros Sg He Hn Sm Sh H.
  destruct (berechne_inv i r H)
    as (mess & heb & Hm & Hh & Hnow & Hv & Hsv & Hj & Hg & _).
  pose proof (truediv_sign _ _ _ Hm) as Smess. rewrite Sm in Smess.
  pose proof (truediv_sign _ _ _ Hh) as Sheb. rewrite Sh in Sheb.
  destruct (schwelle_le _ _ Sg He Hn Hv) as (Sv & Hle).
  destruct (steuer_mono _ _ _ _ _ _ Sv Sg Smess Sheb Hle Hsv Hnow)
    as (Sa & _ & Hs).
  pose proof (quantized_two_places _ (steuer_quantized _ _ _ _ Hnow)) as Tnow.
  pose proof (quantized_two_places _ (steuer_quantized _ _ _ _ Hsv)) as Tsv.
  pose proof (quantized_two_places _ (ersparnis_jahr_quantized _ _ _ Hj)) as Tj.
  pose proof (ersparnis_jahr_exact _ _ _ Tnow Tsv Hj) as Ej.
  pose proof (ersparnis_gesamt_exact _ _ _ Tj Hg) as Eg.
  pose proof (cents_nonneg _ Sa).
  split; [lia|]. split; [lia|]. intros Hy. nia.
Qed.

Lemma threshold_saving_nonnegative_witness :
  0 <= cents (steuer_beim_schwellenwert result_A)
    <= cents (steuer_status_quo result_A) /\
  0 <= cents (ersparnis_pro_jahr_schwelle result_A) /\
  (0 <= years scenario_A -> 0 <= cents (ersparnis_gesamt_schwelle result_A)).
Proof.
  apply (threshold_saving_nonnegative scenario_A result_A);
    try reflexivity.
  cbn. lia.
Defined.

(** X10: the sign of the custom saving follows the custom value.  For
    non-negative rates and non-negative assessed and custom values, a
    custom value of at most the assessed value gives a custom tax of at
    most the current tax and a saving per year that is not negative; a
    custom value of at least the assessed value gives a custom tax of at
    least the current tax and a saving per year that is not positive. *)
Theorem custom_saving_sign i r cv sc jc :
  dsign (grundsteuerwert i) = false -> dsign cv = false ->
  dsign (messzahl_permille i) = false ->
  dsign (hebesatz_prozent i) = false ->
  berechne i = OK r ->
  custom_verkehrswert i = Some cv ->
  steuer_beim_custom r = Some sc ->
  ersparnis_pro_jahr_custom r = Some jc ->
  (Dle cv (grundsteuerwert i) ->
   cents sc <= cents (steuer_status_quo r) /\ 0 <= cents jc) /\
  (Dle (grundsteuerwert i) cv ->
   cents (steuer_status_quo r) <= cents sc /\ cents jc <= 0).
Proof.
  intros Sg Sc Sm Sh H Hcv Hsc Hjc.
  destruct (berechne_inv i r H)
    as (mess & heb & Hm & Hh & Hnow & _ & _ & _ & _ & Hc).
  rewrite Hcv in Hc. destruct Hc as (sc' & jc' & gc' & Hz & E1 & E2 & _).
  rewrite Hsc in E1. injection E1 as <-.
  rewrite Hjc in E2. injection E2 as <-.
  destruct (szenario_inv _ _ _ _ _ _ _ _ Hz) as (Hs & Hj & _).
  pose proof (truediv_sign _ _ _ Hm) as Smess. rewrite Sm in Smess.
  pose proof (truediv_sign _ _ _ Hh) as Sheb. rewrite Sh in Sheb.
  pose proof (quantized_two_places _ (steuer_quantized _ _ _ _ Hnow)) as Tnow.
  pose proof (quantized_two_places _ (steuer_quantized _ _ _ _ Hs)) as Ts.
  pose proof (ersparnis_jahr_exact _ _ _ Tnow Ts Hj) as Ej.
  split; intros Hle.
  - destruct (steuer_mono _ _ _ _ _ _ Sc Sg Smess Sheb Hle Hs Hnow)
      as (_ & _ & Hmono). lia.
  - destruct (steuer_mono _ _ _ _ _ _ Sg Sc Smess Sheb Hle Hnow Hs)
      as (_ & _ & Hmono). lia.
Qed.

Lemma custom_saving_sign_witness :
  Dle (mkDecimal false 600000 0) (grundsteuerwert scenario_B) /\
  cents (mkDecimal false 87420 (-2)) <= cents (steuer_status_quo result_B) /\
  0 <= cents (mkDecimal false 62884 (-2)).
Proof.
  assert (Hle : Dle (mkDecimal false 600000 0) (grundsteuerwert scenario_B))
    by (unfold Dle; cbn; lia).
  split; [exact Hle|].
  apply (custom_saving_sign scenario_B result_B (mkDecimal false 600000 0)
           (mkDecimal false 87420 (-2)) (mkDecimal false 62884 (-2)));
    try reflexivity.
  exact Hle.
Defined.

(** ** Signs *)

Section Signs.

Lemma mul_sign a b t : mul a b = OK t -> dsign t = xorb (dsign a) (dsign b).
Proof. unfold mul. intros H. exact (fix_sign _ _ H). Qed.

Lemma steuer_sign w m h s :
  steuer w m h = OK s -> dsign s = xorb (xorb (dsign w) (dsign m)) (dsign h).
Proof.
  unfold steuer. intros H. bind_inv H. bind_inv H.
  rewrite (quant2_sign _ _ H), (mul_sign _ _ _ E0), (mul_sign _ _ _ E).
  reflexivity.
Qed.

Lemma schwelle_sign g v : schwelle g = OK v -> dsign v = dsign g.
Proof.
  unfold schwelle. intros H. bind_inv H.
  rewrite (quant2_sign _ _ H), (truediv_sign _ _ _ E).
  cbn [dsign Decimal_1_4]. apply xorb_false_r.
Qed.

End Signs.

(** X11: [berechne] does not reject negative inputs, it computes with
    them: in every result the current tax and the tax at the threshold
    carry the product of the signs of the assessed value and the two rates
    (also when they are zero: a negative zero), the threshold carries the
    sign of the assessed value, and the custom tax the product of the signs
    of the custom value and the rates. *)
Theorem signs_not_validated i r :
  berechne i = OK r ->
  let s := xorb (xorb (dsign (grundsteuerwert i))
                      (dsign (messzahl_permille i)))
                (dsign (hebesatz_prozent i)) in
  dsign (steuer_status_quo r) = s /\
  dsign (schwelle_40_prozent r) = dsign (grundsteuerwert i) /\
  dsign (steuer_beim_schwellenwert r) = s /\
  (forall cv sc, custom_verkehrswert i = Some cv ->
     steuer_beim_custom r = Some sc ->
     dsign sc = xorb (xorb (dsign cv) (dsign (messzahl_permille i)))
                     (dsign (hebesatz_prozent i))).
Proof.
  intros H s.
  destruct (berechne_inv i r H)
    as (mess & heb & Hm & Hh & Hnow & Hv & Hsv & _ & _ & Hc).
  pose proof (truediv_sign _ _ _ Hm) as Sm.
  pose proof (truediv_sign _ _ _ Hh) as Sh.
  cbn [dsign Decimal_1000 Decimal_100] in Sm, Sh.
  rewrite xorb_false_r in Sm, Sh.
  pose proof (schwelle_sign _ _ Hv) as Sv.
  split; [rewrite (steuer_sign _ _ _ _ Hnow), Sm, Sh; reflexivity|].
  split; [exact Sv|].
  split; [rewrite (steuer_sign _ _ _ _ Hsv), Sv, Sm, Sh; reflexivity|].
  intros cv sc Hcv Hsc. rewrite Hcv in Hc.
  destruct Hc as (sc' & jc & gc & Hz & E1 & _).
  rewrite Hsc in E1. injection E1 as <-.
  destruct (szenario_inv _ _ _ _ _ _ _ _ Hz) as (Hs & _).
  rewrite (steuer_sign _ _ _ _ Hs), Sm, Sh. reflexivity.
Qed.

Lemma signs_not_validated_witness :
  exists r,
    berechne (mkInputs (mkDecimal true 1031600 0) (mkDecimal false 31 (-2))
                (mkDecimal false 470 0) 4 None) = OK r /\
    dsign (steuer_status_quo r) = true /\
    dsign (schwelle_40_prozent r) = true /\
    dsign (steuer_beim_schwellenwert r) = true.
Proof.
  assert (H : berechne (mkInputs (mkDecimal true 1031600 0)
                          (mkDecimal false 31 (-2)) (mkDecimal false 470 0)
                          4 None)
              = OK (mkResults (mkDecimal true 150304 (-2))
                      (mkDecimal true 73685714 (-2))
                      (mkDecimal true 107360 (-2))
                      (mkDecimal true 42944 (-2))
                      (mkDecimal true 171776 (-2)) None None None))
    by (vm_compute; reflexivity).
  eexists. split; [exact H|].
  destruct (signs_not_validated _ _ H) as (H1 & H2 & H3 & _).
  split; [exact H1|]. split; [exact H2 | exact H3].
Defined.
